(** * crankycoin: the network core of a full node (crankycoin/node.py)

    A shallow embedding of [NodeMixin] and [FullNode].  The node is
    stateful, talks to remote peers over HTTP and raises Python
    exceptions, so its methods are embedded in a state-and-exception monad
    over the node's peer registry and an ordered trace of the observable
    actions (outbound requests, registry calls, chain and pool calls, log
    warnings).  The remote world is an oracle consulted with the trace so
    far. *)

From stdpp Require Import gmap strings list fin_maps.
From Stdlib Require Import ZArith Lia.

Local Open Scope Z_scope.

(** ** Python values, as [json.loads] produces them

    JSON numbers are taken to be integers; floating point is left out. *)

#[warnings="-register-all"]
Inductive PyVal : Type :=
| VNone
| VBool (b : bool)
| VInt (z : Z)
| VStr (s : string)
| VList (l : list PyVal)
| VDict (d : list (string * PyVal)).

(** Lookup of a key in the association list behind a decoded JSON object. *)
Fixpoint dict_lookup (k : string) (d : list (string * PyVal)) : option PyVal :=
  match d with
  | [] => None
  | (k', v) :: d' => if String.eqb k k' then Some v else dict_lookup k d'
  end.

(** Python's [==] on decoded JSON: structural, with [True == 1] and
    [False == 0], lists compared position by position and dicts compared
    key by key whatever their order. *)
Fixpoint py_eq (a b : PyVal) {struct a} : bool :=
  match a, b with
  | VNone, VNone => true
  | VBool x, VBool y => Bool.eqb x y
  | VBool x, VInt y => Z.eqb (if x then 1 else 0) y
  | VInt x, VBool y => Z.eqb x (if y then 1 else 0)
  | VInt x, VInt y => Z.eqb x y
  | VStr x, VStr y => String.eqb x y
  | VList xs, VList ys =>
      (fix items (xs ys : list PyVal) {struct xs} : bool :=
         match xs, ys with
         | [], [] => true
         | x :: xs', y :: ys' => py_eq x y && items xs' ys'
         | _, _ => false
         end) xs ys
  | VDict xs, VDict ys =>
      Nat.eqb (length xs) (length ys) &&
      (fix entries (xs : list (string * PyVal)) {struct xs} : bool :=
         match xs with
         | [] => true
         | (k, v) :: xs' =>
             match dict_lookup k ys with
             | Some w => py_eq v w && entries xs'
             | None => false
             end
         end) xs
  | _, _ => false
  end.

(** ** Exceptions and results *)

Inductive PyExn : Type :=
| RequestException
| ValueError
| TypeError
| KeyError
| AttributeError.

Inductive Result (A : Type) : Type :=
| Ret (a : A)
| Raise (e : PyExn).
Arguments Ret {A} a.
Arguments Raise {A} e.

Global Instance Result_ret : MRet Result := @Ret.
Global Instance Result_bind : MBind Result :=
  λ A B k r, match r with
             | Ret a => k a
             | Raise e => Raise e
             end.

(** [d[k]]: [KeyError] for a missing key, [TypeError] when [d] is not a
    dict (a list, a string, a number and [None] take no string index). *)
Definition py_getitem (d : PyVal) (k : string) : Result PyVal :=
  match d with
  | VDict kvs =>
      match dict_lookup k kvs with
      | Some v => Ret v
      | None => Raise KeyError
      end
  | _ => Raise TypeError
  end.

(** [d.get(k)]: [None] for a missing key, [AttributeError] when [d] is
    not a dict. *)
Definition py_get (d : PyVal) (k : string) : Result PyVal :=
  match d with
  | VDict kvs =>
      match dict_lookup k kvs with
      | Some v => Ret v
      | None => Ret VNone
      end
  | _ => Raise AttributeError
  end.

(** [v is True] *)
Definition is_True (v : PyVal) : bool :=
  match v with
  | VBool true => true
  | _ => false
  end.

(** [v is None] *)
Definition is_None (v : PyVal) : bool :=
  match v with
  | VNone => true
  | _ => false
  end.

(** The one-character strings of a string, as iterating it yields them. *)
Fixpoint chars (s : string) : list string :=
  match s with
  | EmptyString => []
  | String c s' => String c EmptyString :: chars s'
  end.

(** The addresses that [set.union(v)] adds: the items of a list, the
    characters of a string, the keys of a dict; a number, a boolean and
    [None] are not iterable ([TypeError]), a list or dict item is not
    hashable ([TypeError]).  Peer addresses are strings here, so an item
    that is a number, a boolean or [None] is outside the address type and
    is reported as [TypeError] as well. *)
Definition iter_addresses (v : PyVal) : Result (list string) :=
  match v with
  | VList l =>
      (fix items (l : list PyVal) : Result (list string) :=
         match l with
         | [] => Ret []
         | VStr s :: l' =>
             match items l' with
             | Ret r => Ret (s :: r)
             | Raise e => Raise e
             end
         | _ :: _ => Raise TypeError
         end) l
  | VStr s => Ret (chars s)
  | VDict d => Ret (d.*1)
  | _ => Raise TypeError
  end.

(** ** Requests, responses and domain records *)

(** The URL templates of [config['network']]. *)
Inductive Template : Type :=
| NODES_URL
| INBOX_URL
| TRANSACTIONS_URL
| TRANSACTIONS_INV_URL
| BLOCKS_INV_URL
| BLOCKS_URL
| STATUS_URL
| CONNECT_URL.

(** [template.format(args)]: the template and its arguments in order.
    The empty string is written [EmptyString]. *)
Record Url : Type := format { template : Template; args : list PyVal }.

Inductive Request : Type :=
| GET (url : Url)
| POST (url : Url) (json : PyVal).

(** A response: its status code and the outcome of
    [json.loads(response.json())], which raises when the body is not the
    doubly encoded JSON the peers exchange. *)
Record Response : Type := mkResponse {
  status_code : Z;
  decoded : Result PyVal
}.

(** What [requests.get] and [requests.post] do: raise a
    [RequestException] (no response) or hand back a response. *)
Inductive Reply : Type :=
| TransportFailure
| Answer (r : Response).

(** A transport failure, or a response whose status code is not 200. *)
Definition reply_failed (r : Reply) : bool :=
  match r with
  | TransportFailure => true
  | Answer resp => negb (status_code resp =? 200)
  end.

Record BlockHeader : Type := mkBlockHeader {
  previous_hash : PyVal;
  merkle_root : PyVal;
  bh_timestamp : PyVal;
  nonce : PyVal;
  version : PyVal
}.

(** The arguments [Transaction] is constructed from, in order. *)
Record Transaction : Type := mkTransaction {
  source : PyVal;
  destination : PyVal;
  amount : PyVal;
  fee : PyVal;
  prev_hash : PyVal;
  tx_type : PyVal;
  timestamp : PyVal;
  claimed_tx_hash : PyVal;
  asset : PyVal;
  data : PyVal;
  signature : PyVal
}.

Record Block : Type := mkBlock {
  height : PyVal;
  transactions : list Transaction;
  block_header : BlockHeader
}.

(** [BlockHeader(block_dict['previous_hash'], ..., block_dict['version'])]:
    the subscripts are evaluated left to right, the first that fails
    raises. *)
Definition BlockHeader_of (block_dict : PyVal) : Result BlockHeader :=
  previous_hash ← py_getitem block_dict "previous_hash";
  merkle_root ← py_getitem block_dict "merkle_root";
  timestamp ← py_getitem block_dict "timestamp";
  nonce ← py_getitem block_dict "nonce";
  version ← py_getitem block_dict "version";
  mret (mkBlockHeader previous_hash merkle_root timestamp nonce version).

(** [Transaction(tx_dict['source'], ..., tx_dict['signature'])] *)
Definition Transaction_of (tx_dict : PyVal) : Result Transaction :=
  source ← py_getitem tx_dict "source";
  destination ← py_getitem tx_dict "destination";
  amount ← py_getitem tx_dict "amount";
  fee ← py_getitem tx_dict "fee";
  prev_hash ← py_getitem tx_dict "prev_hash";
  tx_type ← py_getitem tx_dict "tx_type";
  timestamp ← py_getitem tx_dict "timestamp";
  tx_hash ← py_getitem tx_dict "tx_hash";
  asset ← py_getitem tx_dict "asset";
  data ← py_getitem tx_dict "data";
  signature ← py_getitem tx_dict "signature";
  mret (mkTransaction source destination amount fee prev_hash tx_type
                      timestamp tx_hash asset data signature).

Inductive Warning : Type :=
| WarnRequestException (node : string)
| WarnInvalidTxHash (claimed recomputed : PyVal).

(** The observable actions of the node, in the order they happen. *)
Inductive Event : Type :=
| EvRequest (r : Request)
| EvRecordDowntime (node : string)
| EvAddPeer (peer : string)
| EvWarn (w : Warning)
| EvMineBlock (result : option Block)
| EvAddBlock (b : Block) (accepted : bool)
| EvRemoveUnconfirmed (txs : list Transaction)
| EvInfoBlockFound (b : Block).

(** ** The node's state and its monad *)

Record Node : Type := mkNode {
  peers : gmap string nat;
  trace : list Event
}.

Definition M (A : Type) : Type := Node → Result A * Node.

Definition ret {A} (a : A) : M A := λ s, (Ret a, s).

Definition bind {A B} (m : M A) (k : A → M B) : M B :=
  λ s, match m s with
       | (Ret a, s') => k a s'
       | (Raise e, s') => (Raise e, s')
       end.

Definition lift {A} (r : Result A) : M A := λ s, (r, s).

Definition emit (e : Event) : M unit :=
  λ s, (Ret tt, mkNode (peers s) (trace s ++ [e])).

(** [try: body / except requests.exceptions.RequestException: handler] *)
Definition try_except {A} (body handler : M A) : M A :=
  λ s, match body s with
       | (Raise RequestException, s') => handler s'
       | other => other
       end.

Definition exec {A} (m : M A) (s : Node) : Node := snd (m s).
Definition eval {A} (m : M A) (s : Node) : Result A := fst (m s).

(** Every run of [m] takes a state to one related to it by [R]. *)
Definition stepwise (R : Node → Node → Prop) {A} (m : M A) : Prop :=
  ∀ s, R s (exec m s).

(** The events a run may add when it only talks to peers and to the
    peer registry. *)
Definition network_event (e : Event) : bool :=
  match e with
  | EvRequest _ | EvRecordDowntime _ | EvAddPeer _ | EvWarn _ => true
  | _ => false
  end.

(** The trace grew by events that satisfy [P]; nothing was dropped. *)
Definition extends_by (P : Event → bool) (s s' : Node) : Prop :=
  ∃ added, trace s' = trace s ++ added ∧ forallb P added = true.

(** No peer was lost. *)
Definition keeps_peers (s s' : Node) : Prop :=
  dom (peers s) ⊆ dom (peers s').

(** A peer count within [bound] stays within it. *)
Definition within_bound (bound : Z) (s s' : Node) : Prop :=
  Z.of_nat (size (peers s)) ≤ bound → Z.of_nat (size (peers s')) ≤ bound.

(** Every peer that is new satisfies [passed]. *)
Definition adds_only (passed : string → Prop) (s s' : Node) : Prop :=
  ∀ p, p ∈ dom (peers s') → p ∈ dom (peers s) ∨ passed p.

Global Instance M_ret : MRet M := @ret.
Global Instance M_bind : MBind M := λ A B k m, bind m k.

(** ** The node: [NodeMixin] and [FullNode], with the methods [FullNode]
    inherits written next to its own *)

Module FullNode.
Section Config.

(** Configuration ([config['network']] and its entries) and identity. *)
Variable NETWORK : PyVal.
Variable FULL_NODE_PORT : PyVal.
Variables MIN_PEERS MAX_PEERS : Z.
Variable host : string.

(** The eviction policy of the peer registry: whether a peer whose
    downtime count reaches [n] is dropped. *)
Variable evicts : nat → bool.

(** The remote world: what a request gets, given all that happened
    before it. *)
Variable net : list Event → Request → Reply.

(** The collaborators of the mining loop: the result of [mine_block],
    the verdict of [Blockchain.add_block], and the value of [exit_flag]
    (set by another thread) at the time it is read. *)
Variable mine_block : list Event → option Block.
Variable add_block : list Event → Block → bool.
Variable exit_flag : list Event → bool.

(** Modelled from the spec: the classes of [crankycoin.models] are not
    in node.py.  [Transaction_tx_hash t] is the attribute [t.tx_hash] of
    a constructed transaction, by the spec "the locally recomputed
    content hash"; [header_hash] is the attribute [hash] of a block
    header, "a pure function of these fields"; [to_dict] is
    [Transaction.to_dict]. *)
Variable Transaction_tx_hash : Transaction → PyVal.
Variable header_hash : BlockHeader → PyVal.
Variable to_dict : Transaction → PyVal.

(** *** The peer registry ([crankycoin.repository.Peers]) *)

(** Modelled from the spec: the class [Peers] is not in node.py.  The
    spec gives it as a mapping from peer address to downtime state with
    count, enumeration, insertion and downtime recording; "insertion is
    a no-op once at maximum", entries are "mutated only by downtime
    recording", and "downtime recording may evict a peer after repeated
    failures" by a policy of its own ([evicts]). *)
Definition Peers_add_peer (h : string) (ps : gmap string nat) : gmap string nat :=
  if Z.of_nat (size ps) <? MAX_PEERS then
    match ps !! h with
    | Some _ => ps
    | None => <[h := 0%nat]> ps
    end
  else ps.

(** Modelled from the spec: see [Peers_add_peer]. *)
Definition Peers_record_downtime (h : string) (ps : gmap string nat) : gmap string nat :=
  match ps !! h with
  | Some n => if evicts (S n) then delete h ps else <[h := S n]> ps
  | None => ps
  end.

(** The registries that can arise: the empty one, and what insertion
    and downtime recording make of one that can arise. *)
Inductive registry_state : gmap string nat → Prop :=
| registry_empty : registry_state ∅
| registry_add_peer h ps :
    registry_state ps → registry_state (Peers_add_peer h ps)
| registry_record_downtime h ps :
    registry_state ps → registry_state (Peers_record_downtime h ps).

Definition get_peers_count : M Z :=
  λ s, (Ret (Z.of_nat (size (peers s))), s).

Definition get_all_peers : M (gset string) :=
  λ s, (Ret (dom (peers s)), s).

Definition add_peer (h : string) : M unit :=
  λ s, (Ret tt, mkNode (Peers_add_peer h (peers s)) (trace s ++ [EvAddPeer h])).

Definition record_downtime (h : string) : M unit :=
  λ s, (Ret tt, mkNode (Peers_record_downtime h (peers s))
                       (trace s ++ [EvRecordDowntime h])).

(** *** Outbound requests *)

(** A request is answered by the world as it stands when the request is
    made, and then enters the trace, whether it was answered or not. *)

Definition send (r : Request) : M Response :=
  λ s, let s' := mkNode (peers s) (trace s ++ [EvRequest r]) in
       match net (trace s) r with
       | Answer resp => (Ret resp, s')
       | TransportFailure => (Raise RequestException, s')
       end.

Definition requests_get (url : Url) : M Response := send (GET url).
Definition requests_post (url : Url) (json : PyVal) : M Response := send (POST url json).

(** [json.loads(response.json())] *)
Definition json_loads (response : Response) : M PyVal := lift (decoded response).

Definition logger_warn (w : Warning) : M unit := emit (EvWarn w).

(** *** NodeMixin *)

(** In the bodies below a [try] block yields [Some v] when it executes
    [return v] and [None] when control leaves it without returning. *)

Definition request_nodes (node : string) (port : PyVal) : M PyVal :=
  let url := format NODES_URL [VStr node; port] in
  r ← try_except
        (response ← requests_get url;
         if status_code response =? 200 then
           all_nodes ← json_loads response;
           mret (Some all_nodes)
         else mret None)
        (record_downtime node;; mret None);
  match r with
  | Some all_nodes => mret all_nodes
  | None => mret VNone
  end.

Fixpoint find_known_peers_loop (peers : list string) (known_peers : gset string)
  : M (gset string) :=
  match peers with
  | [] => mret known_peers
  | peer :: rest =>
      nodes ← request_nodes peer FULL_NODE_PORT;
      known_peers' ←
        (if is_None nodes then mret known_peers
         else
           full_nodes ← lift (py_getitem nodes "full_nodes");
           added ← lift (iter_addresses full_nodes);
           mret (known_peers ∪ list_to_set added));
      find_known_peers_loop rest known_peers'
  end.

Definition find_known_peers : M (gset string) :=
  peers ← get_all_peers;
  find_known_peers_loop (elements peers) peers.

Definition ping_status (h : string) : M PyVal :=
  let url := format STATUS_URL [VStr h; FULL_NODE_PORT] in
  r ← try_except
        (response ← requests_get url;
         if status_code response =? 200 then
           status_dict ← json_loads response;
           mret (Some (VBool (py_eq status_dict NETWORK)))
         else mret None)
        (mret None);
  match r with
  | Some v => mret v
  | None => mret VNone
  end.

(** *** FullNode *)

(** The [try] block of the admission loop, for one candidate. *)
Definition try_candidate (peer : string) : M unit :=
  let status_url := format STATUS_URL [VStr peer; FULL_NODE_PORT] in
  let connect_url := format CONNECT_URL [VStr peer; FULL_NODE_PORT] in
  let host_data := VDict [("host", VStr host)] in
  try_except
    (response ← requests_get status_url;
     skip ←
       (if negb (status_code response =? 200) then mret true
        else status_dict ← json_loads response;
             mret (negb (py_eq status_dict NETWORK)));
     if (skip : bool) then mret tt
     else
       response ← requests_post connect_url host_data;
       joined ←
         (if status_code response =? 202 then
            body ← json_loads response;
            success ← lift (py_get body "success");
            mret (is_True success)
          else mret false);
       if (joined : bool) then add_peer peer else mret tt)
    (mret tt).

Fixpoint check_peers_loop (known_peers : list string) : M unit :=
  match known_peers with
  | [] => mret tt
  | peer :: rest =>
      count ← get_peers_count;
      if MAX_PEERS <=? count then mret tt
      else if String.eqb peer host then check_peers_loop rest
      else try_candidate peer;; check_peers_loop rest
  end.

Definition check_peers : M unit :=
  count ← get_peers_count;
  if count <? MIN_PEERS then
    known_peers ← find_known_peers;
    check_peers_loop (elements known_peers)
  else mret tt.

Fixpoint broadcast_transaction_loop (nodes : list string) (data : PyVal)
  : M (option Response) :=
  match nodes with
  | [] => mret None
  | node :: rest =>
      let url := format TRANSACTIONS_URL [VStr node; FULL_NODE_PORT; VStr EmptyString] in
      r ← try_except
            (response ← requests_post url data;
             mret (Some response))
            (record_downtime node;; mret None);
      match r with
      | Some response => mret (Some response)
      | None => broadcast_transaction_loop rest data
      end
  end.

Definition broadcast_transaction (transaction : Transaction) : M (option Response) :=
  check_peers;;
  let data := VDict [("transaction", to_dict transaction)] in
  nodes ← get_all_peers;
  broadcast_transaction_loop (elements nodes) data.

Definition block_header_url (node : string) (port block_hash height : PyVal) : Url :=
  if negb (is_None block_hash) then
    format BLOCKS_URL [VStr node; port; VStr "hash"; block_hash]
  else if negb (is_None height) then
    format BLOCKS_URL [VStr node; port; VStr "height"; height]
  else
    format BLOCKS_URL [VStr node; port; VStr "height"; VStr "latest"].

Definition request_block_header (node : string) (port block_hash height : PyVal)
  : M (option BlockHeader) :=
  let url := block_header_url node port block_hash height in
  r ← try_except
        (response ← requests_get url;
         if status_code response =? 200 then
           block_dict ← json_loads response;
           block_header ← lift (BlockHeader_of block_dict);
           mret (Some block_header)
         else mret None)
        (logger_warn (WarnRequestException node);;
         record_downtime node;;
         mret None);
  match r with
  | Some block_header => mret (Some block_header)
  | None => mret None
  end.

Definition request_transaction (node : string) (port tx_hash : PyVal)
  : M (option Transaction) :=
  let url := format TRANSACTIONS_URL [VStr node; port; tx_hash] in
  r ← try_except
        (response ← requests_get url;
         if status_code response =? 200 then
           tx_dict ← json_loads response;
           transaction ← lift (Transaction_of tx_dict);
           claimed ← lift (py_getitem tx_dict "tx_hash");
           if negb (py_eq (Transaction_tx_hash transaction) claimed) then
             logger_warn (WarnInvalidTxHash claimed (Transaction_tx_hash transaction));;
             mret (Some None)
           else mret (Some (Some transaction))
         else mret None)
        (logger_warn (WarnRequestException node);;
         record_downtime node;;
         mret None);
  match r with
  | Some result => mret result
  | None => mret None
  end.

Definition request_transactions_inv (node : string) (port block_hash : PyVal) : M PyVal :=
  let url := format TRANSACTIONS_INV_URL [VStr node; port; block_hash] in
  r ← try_except
        (response ← requests_get url;
         if status_code response =? 200 then
           tx_dict ← json_loads response;
           tx_hashes ← lift (py_getitem tx_dict "tx_hashes");
           mret (Some tx_hashes)
         else mret None)
        (logger_warn (WarnRequestException node);;
         record_downtime node;;
         mret None);
  match r with
  | Some tx_hashes => mret tx_hashes
  | None => mret VNone
  end.

Definition request_blocks_inv (node : string) (port start_height stop_height : PyVal)
  : M PyVal :=
  let url := format BLOCKS_INV_URL [VStr node; port; start_height; stop_height] in
  r ← try_except
        (response ← requests_get url;
         if status_code response =? 200 then
           block_dict ← json_loads response;
           block_hashes ← lift (py_getitem block_dict "block_hashes");
           mret (Some block_hashes)
         else mret None)
        (logger_warn (WarnRequestException node);;
         record_downtime node;;
         mret None);
  match r with
  | Some block_hashes => mret block_hashes
  | None => mret VNone
  end.

(** The loop shared by the inventory broadcasts: one POST to the inbox
    of every peer, a failure being logged and recorded before the next
    peer is served. *)
Fixpoint post_inbox_loop (nodes : list string) (data : PyVal) : M unit :=
  match nodes with
  | [] => mret tt
  | node :: rest =>
      let url := format INBOX_URL [VStr node; FULL_NODE_PORT] in
      try_except
        (response ← requests_post url data; mret tt)
        (logger_warn (WarnRequestException node);;
         record_downtime node);;
      post_inbox_loop rest data
  end.

Definition broadcast_block_inv (block_hashes : PyVal) : M unit :=
  check_peers;;
  let data := VDict [("block_hashes", block_hashes)] in
  nodes ← get_all_peers;
  post_inbox_loop (elements nodes) data.

Definition broadcast_transaction_inv (tx_hashes : PyVal) : M unit :=
  check_peers;;
  let data := VDict [("tx_hashes", tx_hashes)] in
  nodes ← get_all_peers;
  post_inbox_loop (elements nodes) data.

(** *** The mining loop *)

Definition call_mine_block : M (option Block) :=
  λ s, let block := mine_block (trace s) in
       (Ret block, mkNode (peers s) (trace s ++ [EvMineBlock block])).

Definition call_add_block (block : Block) : M bool :=
  λ s, let accepted := add_block (trace s) block in
       (Ret accepted, mkNode (peers s) (trace s ++ [EvAddBlock block accepted])).

Definition remove_unconfirmed_transactions (txs : list Transaction) : M unit :=
  emit (EvRemoveUnconfirmed txs).

Definition read_exit_flag : M bool := λ s, (Ret (exit_flag (trace s)), s).

(** One pass through the body of [while not self.exit_flag]. *)
Definition mine_iteration : M unit :=
  block ← call_mine_block;
  match block with
  | None => mret tt
  | Some block =>
      accepted ← call_add_block block;
      if (accepted : bool) then
        remove_unconfirmed_transactions (drop 1 (transactions block));;
        broadcast_block_inv (header_hash (block_header block));;
        emit (EvInfoBlockFound block)
      else mret tt
  end.

(** [mine], for at most [fuel] polls of the exit flag: [true] when the
    loop has returned, [false] when it is still running. *)
Fixpoint mine (fuel : nat) : M bool :=
  match fuel with
  | O => mret false
  | S fuel' =>
      stop ← read_exit_flag;
      if (stop : bool) then mret true
      else mine_iteration;; mine fuel'
  end.

(** *** The two admission checks, as the spec words them

    "HTTP success" is the status code the node tests for: 200 for the
    status request, 202 for the connect request. *)

(** The status check: an answer with status 200 whose body equals the
    local network descriptor. *)
Definition status_check (r : Reply) : bool :=
  match r with
  | Answer resp =>
      (status_code resp =? 200) &&
      match decoded resp with
      | Ret v => py_eq v NETWORK
      | Raise _ => false
      end
  | TransportFailure => false
  end.

(** The connect handshake: an answer with status 202 whose body is an
    object with ["success"] true. *)
Definition connect_check (r : Reply) : bool :=
  match r with
  | Answer resp =>
      (status_code resp =? 202) &&
      match decoded resp with
      | Ret body =>
          match py_get body "success" with
          | Ret v => is_True v
          | Raise _ => false
          end
      | Raise _ => false
      end
  | TransportFailure => false
  end.

Definition status_request (peer : string) : Request :=
  GET (format STATUS_URL [VStr peer; FULL_NODE_PORT]).

Definition connect_request (peer : string) : Request :=
  POST (format CONNECT_URL [VStr peer; FULL_NODE_PORT]) (VDict [("host", VStr host)]).

(** Both checks succeed for [peer] when they are made one after the
    other from the trace [t]. *)
Definition checks_pass_at (t : list Event) (peer : string) : bool :=
  status_check (net t (status_request peer)) &&
  connect_check (net (t ++ [EvRequest (status_request peer)]) (connect_request peer)).

Definition passed_checks (peer : string) : Prop :=
  ∃ t, checks_pass_at t peer = true.

(** Every request for a peer list is answered, and decoding the answer
    raises no [RequestException]. *)
Definition peer_lists_answered : Prop :=
  ∀ t u, template u = NODES_URL →
         ∃ resp, net t (GET u) = Answer resp ∧ decoded resp ≠ Raise RequestException.

(** *** The traces of the mining loop *)

(** The shape of what [mine] adds to the trace, attempt after attempt:
    an attempt without a block; a block the chain rejects; or a block
    the chain accepts, followed at once by the removal of its
    transactions but the first, then by network events, then by the
    info log entry when the broadcast returned. *)
Inductive mine_trace : list Event → Prop :=
| mine_trace_nil : mine_trace []
| mine_trace_no_block l :
    mine_trace l → mine_trace (EvMineBlock None :: l)
| mine_trace_rejected b l :
    mine_trace l → mine_trace (EvMineBlock (Some b) :: EvAddBlock b false :: l)
| mine_trace_accepted b network l :
    forallb network_event network = true →
    mine_trace l →
    mine_trace (EvMineBlock (Some b) :: EvAddBlock b true ::
                EvRemoveUnconfirmed (drop 1 (transactions b)) ::
                network ++ EvInfoBlockFound b :: l)
| mine_trace_broadcast_raised b network :
    forallb network_event network = true →
    mine_trace (EvMineBlock (Some b) :: EvAddBlock b true ::
                EvRemoveUnconfirmed (drop 1 (transactions b)) :: network).

(** *** Failure behaviour of a remote operation, as predicates *)

(** [m], whose request is [req], returns [none] whenever the request
    fails in transport or is answered with a status other than 200. *)
Definition no_result_on_failure {A} (m : M A) (req : Request) (none : A) : Prop :=
  ∀ s, reply_failed (net (trace s) req) = true → eval m s = Ret none.

(** [m], whose request is [req], raises to its caller the exception that
    decoding a 200 response raised, unless it is a [RequestException]. *)
Definition raises_on_undecodable {A} (m : M A) (req : Request) : Prop :=
  ∀ s resp e,
    net (trace s) req = Answer resp → status_code resp = 200 →
    decoded resp = Raise e → e ≠ RequestException →
    eval m s = Raise e.

End Config.
End FullNode.

(** ** Threads: the lifecycle of a node ([__init__] and [shutdown])

    [FullNode.__init__] starts the exposure layer ([bottle_thread]) and,
    when [mining] is true, the mining thread running [mine];
    [shutdown] runs on the caller's thread.  The three threads are
    interleaved one step at a time; [Thread.join] can only complete once
    the joined thread has terminated. *)

Module Lifecycle.

Inductive NodeType : Type := full | miner.

(** Where the caller of [shutdown] stands. *)
Inductive ShutdownPc : Type :=
| NotCalled
| AtNodeTypeTest      (* if self.NODE_TYPE == "miner": *)
| AtSetExitFlag       (* self.exit_flag = True *)
| AtJoinMining        (* self.mining_thread.join() *)
| AtJoinBottle        (* self.bottle_thread.join() *)
| Returned.

(** Where the mining thread stands in [mine]. *)
Inductive MinePc : Type :=
| AtWhile                        (* while not self.exit_flag: *)
| AtMineBlock                    (* block = self.mine_block(...) *)
| AtAddBlock (b : Block)         (* if self.blockchain.add_block(block): *)
| AtRemove (b : Block)           (* self.mempool.remove_unconfirmed_transactions(...) *)
| AtBroadcast (b : Block)        (* self.broadcast_block_inv(...) *)
| AtLogInfo (b : Block)          (* logger.info(...) *)
| MineExited.

Inductive BottlePc : Type := Serving | BottleExited.

Inductive Ev : Type :=
| ShutdownCalled
| ExitFlagSet
| MiningJoined
| BottleJoined
| ShutdownReturned
| Mined (result : option Block)
| ChainAdd (b : Block) (accepted : bool)
| PoolRemove (txs : list Transaction)
| MiningPost (b : Block) (node : string)
| MiningThreadExit
| BottleThreadExit.

Record Sys : Type := mkSys {
  NODE_TYPE : NodeType;
  exit_flag : bool;
  caller : ShutdownPc;
  mining_thread : MinePc;
  bottle_thread : BottlePc;
  events : list Ev
}.

(** The node right after [__init__] with [mining=True]. *)
Definition started_mining : Sys :=
  mkSys miner false NotCalled AtWhile Serving [].

Definition set_caller (pc : ShutdownPc) (e : list Ev) (s : Sys) : Sys :=
  mkSys (NODE_TYPE s) (exit_flag s) pc (mining_thread s) (bottle_thread s)
        (events s ++ e).

Definition set_mining (pc : MinePc) (e : list Ev) (s : Sys) : Sys :=
  mkSys (NODE_TYPE s) (exit_flag s) (caller s) pc (bottle_thread s)
        (events s ++ e).

Inductive step : Sys → Sys → Prop :=
(* the caller, in [shutdown] *)
| step_call s :
    caller s = NotCalled →
    step s (set_caller AtNodeTypeTest [ShutdownCalled] s)
| step_is_miner s :
    caller s = AtNodeTypeTest → NODE_TYPE s = miner →
    step s (set_caller AtSetExitFlag [] s)
| step_not_miner s :
    caller s = AtNodeTypeTest → NODE_TYPE s = full →
    step s (set_caller AtJoinBottle [] s)
| step_set_flag s :
    caller s = AtSetExitFlag →
    step s (mkSys (NODE_TYPE s) true AtJoinMining (mining_thread s)
                  (bottle_thread s) (events s ++ [ExitFlagSet]))
| step_join_mining s :
    caller s = AtJoinMining → mining_thread s = MineExited →
    step s (set_caller AtJoinBottle [MiningJoined] s)
| step_join_bottle s :
    caller s = AtJoinBottle → bottle_thread s = BottleExited →
    step s (set_caller Returned [BottleJoined; ShutdownReturned] s)
(* the mining thread, in [mine] *)
| step_while_exit s :
    mining_thread s = AtWhile → exit_flag s = true →
    step s (set_mining MineExited [MiningThreadExit] s)
| step_while_enter s :
    mining_thread s = AtWhile → exit_flag s = false →
    step s (set_mining AtMineBlock [] s)
| step_mined_nothing s :
    mining_thread s = AtMineBlock →
    step s (set_mining AtWhile [Mined None] s)
| step_mined s b :
    mining_thread s = AtMineBlock →
    step s (set_mining (AtAddBlock b) [Mined (Some b)] s)
| step_add_accepted s b :
    mining_thread s = AtAddBlock b →
    step s (set_mining (AtRemove b) [ChainAdd b true] s)
| step_add_rejected s b :
    mining_thread s = AtAddBlock b →
    step s (set_mining AtWhile [ChainAdd b false] s)
| step_remove s b :
    mining_thread s = AtRemove b →
    step s (set_mining (AtBroadcast b) [PoolRemove (drop 1 (transactions b))] s)
| step_post s b node :
    mining_thread s = AtBroadcast b →
    step s (set_mining (AtBroadcast b) [MiningPost b node] s)
| step_broadcast_done s b :
    mining_thread s = AtBroadcast b →
    step s (set_mining (AtLogInfo b) [] s)
| step_broadcast_raises s b :
    mining_thread s = AtBroadcast b →
    step s (set_mining MineExited [MiningThreadExit] s)
| step_log_info s b :
    mining_thread s = AtLogInfo b →
    step s (set_mining AtWhile [] s)
(* the exposure layer *)
| step_bottle_exit s :
    bottle_thread s = Serving →
    step s (mkSys (NODE_TYPE s) (exit_flag s) (caller s) (mining_thread s)
                  BottleExited (events s ++ [BottleThreadExit])).

Definition reachable (s : Sys) : Prop := rtc step started_mining s.

(** An event that only the mining thread produces. *)
Definition mining_event (e : Ev) : bool :=
  match e with
  | Mined _ | ChainAdd _ _ | PoolRemove _ | MiningPost _ _ | MiningThreadExit => true
  | _ => false
  end.

(** An event that only [shutdown] produces once it is past its test. *)
Definition shutdown_event (e : Ev) : bool :=
  match e with
  | ExitFlagSet | MiningJoined | BottleJoined | ShutdownReturned => true
  | _ => false
  end.

Definition no_shutdown_event (l : list Ev) : Prop :=
  forallb (λ e, negb (shutdown_event e)) l = true.

Definition no_mining_event (l : list Ev) : Prop :=
  forallb (λ e, negb (mining_event e)) l = true.

(** [e1] occurs in [l], and [e2] occurs later in [l]. *)
Definition before (e1 e2 : Ev) (l : list Ev) : Prop :=
  ∃ l1 l2 l3, l = l1 ++ e1 :: l2 ++ e2 :: l3.

(** What the events look like, given where the caller of [shutdown]
    stands and where the mining thread stands. *)
Definition phase_inv (pc : ShutdownPc) (mt : MinePc) (evs : list Ev) : Prop :=
  match pc with
  | NotCalled | AtNodeTypeTest | AtSetExitFlag => no_shutdown_event evs
  | AtJoinMining =>
      ∃ l1 l2, evs = l1 ++ ExitFlagSet :: l2 ∧
               no_shutdown_event l1 ∧ no_shutdown_event l2
  | AtJoinBottle =>
      mt = MineExited ∧
      ∃ l1 l2 l3, evs = l1 ++ ExitFlagSet :: l2 ++ MiningJoined :: l3 ∧
                  no_shutdown_event l1 ∧ no_shutdown_event l2 ∧
                  In MiningThreadExit (l1 ++ l2) ∧
                  no_shutdown_event l3 ∧ no_mining_event l3
  | Returned =>
      mt = MineExited ∧
      ∃ l1 l2 l3 post,
        evs = l1 ++ ExitFlagSet :: l2 ++ MiningJoined :: l3 ++
              BottleJoined :: ShutdownReturned :: post ∧
        no_shutdown_event l1 ∧ no_shutdown_event l2 ∧
        In MiningThreadExit (l1 ++ l2) ∧
        no_shutdown_event l3 ∧ no_mining_event l3 ∧
        no_shutdown_event post ∧ no_mining_event post
  end.

Definition inv (s : Sys) : Prop :=
  NODE_TYPE s = miner ∧
  (mining_thread s = MineExited → In MiningThreadExit (events s)) ∧
  phase_inv (caller s) (mining_thread s) (events s).

End Lifecycle.

(** ** Concrete nodes and worlds, for evaluation *)

Module Example.

Definition network0 : PyVal :=
  VDict [("name", VStr "cranky"); ("full_node_port", VInt 8080)].

Definition port0 : PyVal := VInt 8080.

(** Evict a peer at its fourth recorded failure. *)
Definition evicts0 (n : nat) : bool := (3 <? n)%nat.

Definition ok (v : PyVal) : Reply := Answer (mkResponse 200 (Ret v)).

(** A node that knows the peers [a] and [b] and has done nothing yet. *)
Definition node_ab : Node := mkNode {[ "a" := 0%nat; "b" := 0%nat ]} [].

(** A node that knows only the peer [a]. *)
Definition node_a : Node := mkNode {[ "a" := 0%nat ]} [].

(** Every request is answered 200 with the local network descriptor. *)
Definition net_status_ok (_ : list Event) (_ : Request) : Reply := ok network0.

(** Every request is answered 200 with an empty JSON object. *)
Definition net_empty_object (_ : list Event) (_ : Request) : Reply := ok (VDict []).

(** Every request is answered 200 with a body that [json.loads] rejects
    (a JSON string whose content is not JSON). *)
Definition net_not_json (_ : list Event) (_ : Request) : Reply :=
  Answer (mkResponse 200 (Raise ValueError)).

(** Every request is answered 404. *)
Definition net_not_found (_ : list Event) (_ : Request) : Reply :=
  Answer (mkResponse 404 (Ret VNone)).

(** A transaction body whose claimed hash is ["claimed"]. *)
Definition tx_dict0 : PyVal :=
  VDict [("source", VStr "alice"); ("destination", VStr "bob");
         ("amount", VInt 5); ("fee", VInt 1); ("prev_hash", VStr "0");
         ("tx_type", VInt 2); ("timestamp", VInt 1500000000);
         ("tx_hash", VStr "claimed"); ("asset", VStr "cranky");
         ("data", VStr EmptyString); ("signature", VStr "sig")].

Definition tx0 : Transaction :=
  mkTransaction (VStr "alice") (VStr "bob") (VInt 5) (VInt 1) (VStr "0")
                (VInt 2) (VInt 1500000000) (VStr "claimed") (VStr "cranky")
                (VStr EmptyString) (VStr "sig").

Definition net_tx (_ : list Event) (_ : Request) : Reply := ok tx_dict0.

(** A hash function under which no body hashes to ["claimed"]. *)
Definition hash_recomputed (_ : Transaction) : PyVal := VStr "recomputed".

Definition to_dict0 (t : Transaction) : PyVal :=
  VDict [("source", source t); ("destination", destination t);
         ("amount", amount t); ("tx_hash", claimed_tx_hash t)].

Definition accepted : Reply :=
  Answer (mkResponse 202 (Ret (VDict [("success", VBool true)]))).

(** A world that never changes: peer [a] reports [b], peer [b] reports
    [c], everybody else reports nobody; every status request is answered
    with the local descriptor and every connect request is accepted. *)
Definition gossip_net (_ : list Event) (r : Request) : Reply :=
  match r with
  | GET (format NODES_URL (VStr node :: _)) =>
      if String.eqb node "a" then ok (VDict [("full_nodes", VList [VStr "b"])])
      else if String.eqb node "b" then ok (VDict [("full_nodes", VList [VStr "c"])])
      else ok (VDict [("full_nodes", VList [])])
  | GET (format NODES_URL _) => ok (VDict [("full_nodes", VList [])])
  | GET (format STATUS_URL _) => ok network0
  | POST (format CONNECT_URL _) _ => accepted
  | _ => ok VNone
  end.

(** The admission pass of a node [me] in the world [gossip_net], wanting
    at least [min_peers] peers and at most ten. *)
Definition gossip_check_peers (min_peers : Z) : M unit :=
  FullNode.check_peers network0 port0 min_peers 10 "me" evicts0 gossip_net.

(** A block with a coinbase transaction and two others. *)
Definition coinbase : Transaction :=
  mkTransaction (VStr "0") (VStr "miner") (VInt 50) (VInt 0) (VStr "0")
                (VInt 1) (VInt 1500000000) (VStr "cb") (VStr "cranky")
                (VStr EmptyString) (VStr EmptyString).

Definition tx1 : Transaction :=
  mkTransaction (VStr "alice") (VStr "bob") (VInt 5) (VInt 1) (VStr "0")
                (VInt 2) (VInt 1500000001) (VStr "h1") (VStr "cranky")
                (VStr EmptyString) (VStr "sig1").

Definition tx2 : Transaction :=
  mkTransaction (VStr "bob") (VStr "carol") (VInt 2) (VInt 1) (VStr "h1")
                (VInt 2) (VInt 1500000002) (VStr "h2") (VStr "cranky")
                (VStr EmptyString) (VStr "sig2").

Definition block0 : Block :=
  mkBlock (VInt 7) [coinbase; tx1; tx2]
          (mkBlockHeader (VStr "prev") (VStr "root") (VInt 1500000003) (VInt 42) (VInt 1)).

Definition header_hash0 (h : BlockHeader) : PyVal := VStr "blockhash".

(** Mining finds [block0] at once, and nothing after it. *)
Definition mine_block0 (t : list Event) : option Block :=
  match t with
  | [] => Some block0
  | _ => None
  end.

(** The exit flag is raised once something has been mined. *)
Definition exit_flag0 (t : list Event) : bool :=
  match t with
  | [] => false
  | _ => true
  end.

(** A node with mining enabled whose [shutdown] has returned: the mining
    thread saw the flag at its next poll. *)
Definition shut_down : Lifecycle.Sys :=
  Lifecycle.mkSys Lifecycle.miner true Lifecycle.Returned Lifecycle.MineExited
    Lifecycle.BottleExited
    [Lifecycle.Mined None; Lifecycle.ShutdownCalled; Lifecycle.ExitFlagSet;
     Lifecycle.MiningThreadExit; Lifecycle.MiningJoined;
     Lifecycle.BottleThreadExit; Lifecycle.BottleJoined;
     Lifecycle.ShutdownReturned].

End Example.

(** ** Reading a trace, and the rest of the broadcasts *)

(** The requests of a trace, in the order they were made. *)
Fixpoint requests_of (t : list Event) : list Request :=
  match t with
  | [] => []
  | EvRequest r :: t' => r :: requests_of t'
  | _ :: t' => requests_of t'
  end.

(** The peers against which a trace records downtime, in order. *)
Fixpoint downtimes_of (t : list Event) : list string :=
  match t with
  | [] => []
  | EvRecordDowntime node :: t' => node :: downtimes_of t'
  | _ :: t' => downtimes_of t'
  end.

(** [requests.get] or [requests.post] raised. *)
Definition transport_failed (r : Reply) : bool :=
  match r with
  | TransportFailure => true
  | Answer _ => false
  end.

(** The registry lost peers at most. *)
Definition loses_peers_only (s s' : Node) : Prop :=
  dom (peers s') ⊆ dom (peers s).

(** [m] never raises a [RequestException] to its caller. *)
Definition no_request_exception {A} (m : M A) : Prop :=
  ∀ s, eval m s ≠ Raise RequestException.

(** A request for a peer list, and what precedes the admission loop in
    [check_peers]: such requests and the downtime they lead to. *)
Definition discovery_event (e : Event) : bool :=
  match e with
  | EvRequest (GET (format NODES_URL _)) | EvRecordDowntime _ => true
  | _ => false
  end.

Module Broadcast.
Section Config.

Variable NETWORK : PyVal.
Variable FULL_NODE_PORT : PyVal.
Variables MIN_PEERS MAX_PEERS : Z.
Variable host : string.
Variable evicts : nat → bool.
Variable net : list Event → Request → Reply.

(** Modelled from the spec: [BlockHeader.to_json] is not in node.py; it
    is an export function of the opaque header record. *)
Variable to_json : BlockHeader → PyVal.

Definition broadcast_block_header (block_header : BlockHeader) : M unit :=
  FullNode.check_peers NETWORK FULL_NODE_PORT MIN_PEERS MAX_PEERS host evicts net;;
  let data := VDict [("block_header", to_json block_header)] in
  nodes ← FullNode.get_all_peers;
  FullNode.post_inbox_loop FULL_NODE_PORT evicts net (elements nodes) data.

(** The POST of [data] to the inbox of [node]. *)
Definition inbox_request (data : PyVal) (node : string) : Request :=
  POST (format INBOX_URL [VStr node; FULL_NODE_PORT]) data.

(** The POST of a transaction body to [node]. *)
Definition transaction_request (data : PyVal) (node : string) : Request :=
  POST (format TRANSACTIONS_URL [VStr node; FULL_NODE_PORT; VStr EmptyString]) data.

(** The GET of the peer list of [node]. *)
Definition nodes_request (node : string) : Request :=
  GET (format NODES_URL [VStr node; FULL_NODE_PORT]).

(** The world answers a request the same way whatever happened before. *)
Definition unchanging : Prop := ∀ t t' r, net t r = net t' r.

(** What the admission loop adds to a trace that stands at [t]: for one
    candidate after the other, never the node itself, a status request
    alone when the status check fails; a status request and a connect
    request when only the handshake fails; both and the insertion when
    both succeed.  Nothing else enters the trace: no downtime, no
    warning. *)
Inductive handshakes : list Event → list Event → Prop :=
| handshakes_done t : handshakes t []
| handshakes_incompatible t peer l :
    peer ≠ host →
    FullNode.status_check NETWORK (net t (FullNode.status_request FULL_NODE_PORT peer))
      = false →
    handshakes (t ++ [EvRequest (FullNode.status_request FULL_NODE_PORT peer)]) l →
    handshakes t (EvRequest (FullNode.status_request FULL_NODE_PORT peer) :: l)
| handshakes_refused t peer l :
    peer ≠ host →
    FullNode.status_check NETWORK (net t (FullNode.status_request FULL_NODE_PORT peer))
      = true →
    FullNode.connect_check
      (net (t ++ [EvRequest (FullNode.status_request FULL_NODE_PORT peer)])
           (FullNode.connect_request FULL_NODE_PORT host peer)) = false →
    handshakes (t ++ [EvRequest (FullNode.status_request FULL_NODE_PORT peer);
                      EvRequest (FullNode.connect_request FULL_NODE_PORT host peer)]) l →
    handshakes t (EvRequest (FullNode.status_request FULL_NODE_PORT peer) ::
                  EvRequest (FullNode.connect_request FULL_NODE_PORT host peer) :: l)
| handshakes_joined t peer l :
    peer ≠ host →
    FullNode.checks_pass_at NETWORK FULL_NODE_PORT host net t peer = true →
    handshakes (t ++ [EvRequest (FullNode.status_request FULL_NODE_PORT peer);
                      EvRequest (FullNode.connect_request FULL_NODE_PORT host peer);
                      EvAddPeer peer]) l →
    handshakes t (EvRequest (FullNode.status_request FULL_NODE_PORT peer) ::
                  EvRequest (FullNode.connect_request FULL_NODE_PORT host peer) ::
                  EvAddPeer peer :: l).

End Config.
End Broadcast.

(** ** The body of a 200 answer, as predicates on a remote operation *)

Module RemoteBody.
Section Config.

Variable net : list Event → Request → Reply.

(** [m], whose request is [req], raises to its caller the exception that
    [parse] raises on the decoded body of a 200 answer, unless it is a
    [RequestException]. *)
Definition raises_on_bad_shape {A B} (m : M A) (req : Request)
    (parse : PyVal → Result B) : Prop :=
  ∀ s resp body e,
    net (trace s) req = Answer resp → status_code resp = 200 →
    decoded resp = Ret body → parse body = Raise e → e ≠ RequestException →
    eval m s = Raise e.

(** [m], whose request is [req], returns [result body] whatever the
    decoded body of a 200 answer is. *)
Definition returns_on_any_body {A} (m : M A) (req : Request)
    (result : PyVal → A) : Prop :=
  ∀ s resp body,
    net (trace s) req = Answer resp → status_code resp = 200 →
    decoded resp = Ret body →
    eval m s = Ret (result body).

End Config.
End RemoteBody.

(** ** The run of an admission pass *)

(** In a run whose trace went from [start] to [final], the request [req]
    was made when the trace stood at [t]. *)
Definition requested_at (start final t : list Event) (req : Request) : Prop :=
  (∃ pre, t = start ++ pre) ∧ (∃ rest, final = t ++ EvRequest req :: rest).

(** A request for the status of a peer. *)
Definition status_event (e : Event) : bool :=
  match e with
  | EvRequest (GET (format STATUS_URL _)) => true
  | _ => false
  end.

(** The registry is what it was, downtime counts included. *)
Definition same_registry (s s' : Node) : Prop := peers s' = peers s.

(** Every entry of the registry is still there, as it was. *)
Definition keeps_entries (s s' : Node) : Prop := peers s ⊆ peers s'.

(** ** What a peer reports *)

Module Discovery.
Section Config.

Variable FULL_NODE_PORT : PyVal.
Variable net : list Event → Request → Reply.

(** The addresses that one round of the loop of [find_known_peers] reads
    from the peer list of [node], asked for when the trace stands at
    [t]: those of the ["full_nodes"] entry of a decoded 200 answer that
    is not [None]; none when [request_nodes] returns [None]; and the
    exception that leaves the loop otherwise. *)
Definition reported (t : list Event) (node : string) : Result (list string) :=
  match net t (GET (format NODES_URL [VStr node; FULL_NODE_PORT])) with
  | TransportFailure => Ret []
  | Answer resp =>
      if status_code resp =? 200 then
        match decoded resp with
        | Ret nodes =>
            if is_None nodes then Ret []
            else full_nodes ← py_getitem nodes "full_nodes";
                 iter_addresses full_nodes
        | Raise RequestException => Ret []
        | Raise e => Raise e
        end
      else Ret []
  end.

(** [node] reports the address [a] in its peer list. *)
Definition reports (node a : string) : Prop :=
  ∃ t added, reported t node = Ret added ∧ a ∈ added.

End Config.
End Discovery.

(** ** More of the threads *)

Module LifecycleMore.
Import Lifecycle.

(** What follows the first [ExitFlagSet] of an event list; nothing when
    the flag was never set. *)
Fixpoint after_flag (l : list Ev) : list Ev :=
  match l with
  | [] => []
  | ExitFlagSet :: l' => l'
  | _ :: l' => after_flag l'
  end.

(** The number of calls of [mine_block] among the events. *)
Fixpoint attempts (l : list Ev) : nat :=
  match l with
  | [] => 0%nat
  | Mined _ :: l' => S (attempts l')
  | _ :: l' => attempts l'
  end.

(** The exit flag is up exactly when [shutdown] has set it; from then on
    the mining thread is not about to call [mine_block] again once it
    has called it. *)
Definition flag_inv (s : Sys) : Prop :=
  if exit_flag s
  then In ExitFlagSet (events s) ∧
       (attempts (after_flag (events s)) ≤ 1)%nat ∧
       (mining_thread s = AtMineBlock → attempts (after_flag (events s)) = 0%nat)
  else ¬ In ExitFlagSet (events s).

(** The exposure layer has exited whenever it counts as exited, and it
    was joined only after that. *)
Definition bottle_inv (s : Sys) : Prop :=
  (bottle_thread s = BottleExited → In BottleThreadExit (events s)) ∧
  (∀ pre post, events s = pre ++ BottleJoined :: post → In BottleThreadExit pre).

End LifecycleMore.

(** ** More concrete nodes and worlds *)

Module MoreExamples.
Import Example.

(** A node without peers. *)
Definition node_empty : Node := mkNode ∅ [].

(** A world that never changes, in which the inbox of [b] cannot be
    reached and every other request is answered 500. *)
Definition net_b_down (_ : list Event) (r : Request) : Reply :=
  match r with
  | POST (format INBOX_URL (VStr node :: _)) _ =>
      if String.eqb node "b" then TransportFailure
      else Answer (mkResponse 500 (Ret VNone))
  | _ => Answer (mkResponse 500 (Ret VNone))
  end.

(** Nobody can be reached. *)
Definition net_down (_ : list Event) (_ : Request) : Reply := TransportFailure.

(** A world that never changes: every peer reports [b]; every status
    request is answered 200 with the local descriptor; every connect
    request is answered 200, not 202, with a body whose ["success"] is
    true. *)
Definition net_connect_200 (_ : list Event) (r : Request) : Reply :=
  match r with
  | GET (format NODES_URL _) => ok (VDict [("full_nodes", VList [VStr "b"])])
  | GET (format STATUS_URL _) => ok network0
  | POST (format CONNECT_URL _) _ => ok (VDict [("success", VBool true)])
  | _ => ok VNone
  end.

(** The same world, but every status request is answered 201, not 200,
    with the local descriptor, and every connect request is accepted
    with 202. *)
Definition net_status_201 (_ : list Event) (r : Request) : Reply :=
  match r with
  | GET (format NODES_URL _) => ok (VDict [("full_nodes", VList [VStr "b"])])
  | GET (format STATUS_URL _) => Answer (mkResponse 201 (Ret network0))
  | POST (format CONNECT_URL _) _ => accepted
  | _ => ok VNone
  end.

(** A node whose only peer [a] has failed twice already. *)
Definition node_a_failing : Node := mkNode {[ "a" := 2%nat ]} [].

(** A header body with one field more than a header has. *)
Definition header_dict0 : list (string * PyVal) :=
  [("version", VInt 1); ("nonce", VInt 42); ("height", VInt 7);
   ("timestamp", VInt 1500000003); ("merkle_root", VStr "root");
   ("previous_hash", VStr "prev")].

Definition net_header (_ : list Event) (_ : Request) : Reply := ok (VDict header_dict0).

(** A hash function that agrees with every claimed hash. *)
Definition hash_claimed (t : Transaction) : PyVal := claimed_tx_hash t.

Definition to_json0 (h : BlockHeader) : PyVal :=
  VDict [("previous_hash", previous_hash h); ("merkle_root", merkle_root h);
         ("timestamp", bh_timestamp h); ("nonce", nonce h); ("version", version h)].

(** A node with mining enabled whose exit flag went up while the mining
    thread was about to call [mine_block]: the block is still mined and
    submitted, then the thread exits. *)
Definition late_attempt : Lifecycle.Sys :=
  Lifecycle.mkSys Lifecycle.miner true Lifecycle.AtJoinMining Lifecycle.MineExited
    Lifecycle.Serving
    [Lifecycle.ShutdownCalled; Lifecycle.ExitFlagSet;
     Lifecycle.Mined (Some block0); Lifecycle.ChainAdd block0 false;
     Lifecycle.MiningThreadExit].

End MoreExamples.

(** * Properties *)

(** ** Running the monad *)

Lemma run_bind {A B} (m : M A) (k : A → M B) s :
  (m ≫= k) s = match m s with
               | (Ret a, s') => k a s'
               | (Raise e, s') => (Raise e, s')
               end.
Proof. reflexivity. Qed.

(** Unfold the remote operations down to the oracle. *)
Ltac run_request :=
  cbv [FullNode.request_nodes FullNode.ping_status FullNode.request_block_header
       FullNode.request_transaction FullNode.request_transactions_inv
       FullNode.request_blocks_inv FullNode.requests_get FullNode.requests_post
       FullNode.send FullNode.json_loads FullNode.logger_warn
       FullNode.record_downtime FullNode.no_result_on_failure
       FullNode.raises_on_undecodable
       eval exec mbind mret M_bind M_ret bind ret try_except lift emit fst snd].

(** Case analysis on the reply the oracle gives in the goal. *)
Ltac on_reply :=
  match goal with
  | |- context [match ?net ?t ?r with TransportFailure => _ | Answer _ => _ end] =>
      destruct (net t r) as [|?resp] eqn:?Hreply; simpl
  end.

Section RemoteClientFacts.

Variables (NETWORK FULL_NODE_PORT : PyVal) (evicts : nat → bool).
Variable net : list Event → Request → Reply.
Variable Transaction_tx_hash : Transaction → PyVal.

Local Abbreviation request_nodes := (FullNode.request_nodes evicts net).
Local Abbreviation ping_status := (FullNode.ping_status NETWORK FULL_NODE_PORT net).
Local Abbreviation block_header_url := FullNode.block_header_url.
Local Abbreviation request_block_header := (FullNode.request_block_header evicts net).
Local Abbreviation request_transaction :=
  (FullNode.request_transaction evicts net Transaction_tx_hash).
Local Abbreviation request_transactions_inv := (FullNode.request_transactions_inv evicts net).
Local Abbreviation request_blocks_inv := (FullNode.request_blocks_inv evicts net).
Local Abbreviation no_result_on_failure := (FullNode.no_result_on_failure net).
Local Abbreviation raises_on_undecodable := (FullNode.raises_on_undecodable net).
Local Abbreviation returns_on_any_body := (RemoteBody.returns_on_any_body net).
Local Abbreviation raises_on_bad_shape := (RemoteBody.raises_on_bad_shape net).

Lemma failed_not_200 resp : reply_failed (Answer resp) = true → (status_code resp =? 200) = false.
Proof. simpl. apply negb_true_iff. Qed.

Lemma py_getitem_raises body k e :
  py_getitem body k = Raise e →
  (e = KeyError ∧ ∃ d, body = VDict d) ∨ (e = TypeError ∧ ∀ d, body ≠ VDict d).
Proof.
  destruct body as [| | | | |d]; simpl; try (intros [= <-]; by right).
  destruct (dict_lookup k d); [done|]. intros [= <-]. left. split; [done|by exists d].
Qed.

Lemma BlockHeader_of_raises body e :
  BlockHeader_of body = Raise e →
  (e = KeyError ∧ ∃ d, body = VDict d) ∨ (e = TypeError ∧ ∀ d, body ≠ VDict d).
Proof.
  unfold BlockHeader_of. intros H.
  repeat match type of H with
         | (?r ≫= _) = _ =>
             let E := fresh "E" in
             destruct r eqn:E; simpl in H;
             [|injection H as <-; by eapply py_getitem_raises]
         end.
  done.
Qed.

Lemma Transaction_of_raises body e :
  Transaction_of body = Raise e →
  (e = KeyError ∧ ∃ d, body = VDict d) ∨ (e = TypeError ∧ ∀ d, body ≠ VDict d).
Proof.
  unfold Transaction_of. intros H.
  repeat match type of H with
         | (?r ≫= _) = _ =>
             let E := fresh "E" in
             destruct r eqn:E; simpl in H;
             [|injection H as <-; by eapply py_getitem_raises]
         end.
  done.
Qed.

Lemma missing_key_raises d k :
  dict_lookup k d = None →
  py_getitem (VDict d) k = Raise KeyError ∧
  (k ∈ ["previous_hash"; "merkle_root"; "timestamp"; "nonce"; "version"] →
   BlockHeader_of (VDict d) = Raise KeyError) ∧
  (k ∈ ["source"; "destination"; "amount"; "fee"; "prev_hash"; "tx_type";
        "timestamp"; "tx_hash"; "asset"; "data"; "signature"] →
   Transaction_of (VDict d) = Raise KeyError).
Proof.
  intros Hnone. split; [|split].
  - simpl. by rewrite Hnone.
  - intros Hk. unfold BlockHeader_of. simpl.
    repeat (apply elem_of_cons in Hk as [->|Hk];
            [rewrite Hnone; simpl; by repeat case_match|]).
    by apply elem_of_nil in Hk.
  - intros Hk. unfold Transaction_of. simpl.
    repeat (apply elem_of_cons in Hk as [->|Hk];
            [rewrite Hnone; simpl; by repeat case_match|]).
    by apply elem_of_nil in Hk.
Qed.

Lemma not_object_raises body k :
  (∀ d, body ≠ VDict d) →
  py_getitem body k = Raise TypeError ∧
  BlockHeader_of body = Raise TypeError ∧
  Transaction_of body = Raise TypeError.
Proof.
  intros Hbody. destruct body as [| | | | |d]; try done. by destruct (Hbody d).
Qed.

(** C5 (amended) The six remote operations return their "no result"
    value, and do not raise, when the request fails in transport and when
    it is answered with a status other than 200.  On a 200 answer: when
    the body cannot be decoded, every one of them raises the decoding
    exception (any but a [RequestException]) to its caller; when the
    body decodes, [request_nodes] returns it and [ping_status] returns a
    boolean, whatever it is, and [request_block_header],
    [request_transaction], [request_transactions_inv] and
    [request_blocks_inv] raise what reading their fields from it raises,
    which is [KeyError] or [TypeError] and nothing else: [KeyError] when
    the body is an object that lacks a key they read, [TypeError] when
    the body is not an object. *)
Theorem remote_operations_on_failure (node : string) (port a b : PyVal) :
  let nodes_req := GET (format NODES_URL [VStr node; port]) in
  let status_req := GET (format STATUS_URL [VStr node; FULL_NODE_PORT]) in
  let header_req := GET (block_header_url node port a b) in
  let tx_req := GET (format TRANSACTIONS_URL [VStr node; port; a]) in
  let tx_inv_req := GET (format TRANSACTIONS_INV_URL [VStr node; port; a]) in
  let blocks_inv_req := GET (format BLOCKS_INV_URL [VStr node; port; a; b]) in
  (no_result_on_failure (request_nodes node port) nodes_req VNone ∧
   no_result_on_failure (ping_status node) status_req VNone ∧
   no_result_on_failure (request_block_header node port a b) header_req None ∧
   no_result_on_failure (request_transaction node port a) tx_req None ∧
   no_result_on_failure (request_transactions_inv node port a) tx_inv_req VNone ∧
   no_result_on_failure (request_blocks_inv node port a b) blocks_inv_req VNone) ∧
  (raises_on_undecodable (request_nodes node port) nodes_req ∧
   raises_on_undecodable (ping_status node) status_req ∧
   raises_on_undecodable (request_block_header node port a b) header_req ∧
   raises_on_undecodable (request_transaction node port a) tx_req ∧
   raises_on_undecodable (request_transactions_inv node port a) tx_inv_req ∧
   raises_on_undecodable (request_blocks_inv node port a b) blocks_inv_req) ∧
  (returns_on_any_body (request_nodes node port) nodes_req (λ body, body) ∧
   returns_on_any_body (ping_status node) status_req
     (λ body, VBool (py_eq body NETWORK)) ∧
   raises_on_bad_shape (request_block_header node port a b) header_req BlockHeader_of ∧
   raises_on_bad_shape (request_transaction node port a) tx_req Transaction_of ∧
   raises_on_bad_shape (request_transactions_inv node port a) tx_inv_req
     (λ body, py_getitem body "tx_hashes") ∧
   raises_on_bad_shape (request_blocks_inv node port a b) blocks_inv_req
     (λ body, py_getitem body "block_hashes")) ∧
  (∀ body e,
     (BlockHeader_of body = Raise e ∨ Transaction_of body = Raise e ∨
      (∃ k, py_getitem body k = Raise e)) →
     (e = KeyError ∧ ∃ d, body = VDict d) ∨ (e = TypeError ∧ ∀ d, body ≠ VDict d)) ∧
  (∀ d k,
     dict_lookup k d = None →
     py_getitem (VDict d) k = Raise KeyError ∧
     (k ∈ ["previous_hash"; "merkle_root"; "timestamp"; "nonce"; "version"] →
      BlockHeader_of (VDict d) = Raise KeyError) ∧
     (k ∈ ["source"; "destination"; "amount"; "fee"; "prev_hash"; "tx_type";
           "timestamp"; "tx_hash"; "asset"; "data"; "signature"] →
      Transaction_of (VDict d) = Raise KeyError)) ∧
  (∀ body k,
     (∀ d, body ≠ VDict d) →
     py_getitem body k = Raise TypeError ∧
     BlockHeader_of body = Raise TypeError ∧
     Transaction_of body = Raise TypeError).
Proof.
  split; [|split; [|split; [|split; [|split]]]];
    [| | | |apply missing_key_raises|apply not_object_raises].
  - repeat split; intros s; run_request; (on_reply; [done|]);
      intros ->%failed_not_200; done.
  - repeat split; intros s resp e; run_request;
      intros -> Hcode Hdec Hne; simpl;
      apply Z.eqb_eq in Hcode; rewrite Hcode, Hdec; simpl;
      destruct e; done.
  - unfold RemoteBody.returns_on_any_body, RemoteBody.raises_on_bad_shape.
    repeat split.
    1-2: intros s resp body; run_request; intros -> Hcode Hdec; simpl;
      apply Z.eqb_eq in Hcode; by rewrite Hcode, Hdec.
    all: intros s resp body e; run_request; intros -> Hcode Hdec Hparse Hne; simpl;
      apply Z.eqb_eq in Hcode; rewrite Hcode, Hdec; simpl;
      rewrite Hparse; simpl; destruct e; done.
  - intros body e [H|[H|[k H]]];
      eauto using BlockHeader_of_raises, Transaction_of_raises, py_getitem_raises.
Qed.

(** C9 (amended) [ping_status] returns, on a 200 response whose body
    decodes to [v], the boolean [v == config['network']]; it returns
    [None] on a transport failure and on any other status code.  It
    changes nothing but the trace, where it leaves its one request: no
    downtime is recorded. *)
Theorem ping_status_result (h : string) (s : Node) :
  let req := GET (format STATUS_URL [VStr h; FULL_NODE_PORT]) in
  (∀ resp v, net (trace s) req = Answer resp → status_code resp = 200 →
             decoded resp = Ret v →
             eval (ping_status h) s = Ret (VBool (py_eq v NETWORK))) ∧
  (reply_failed (net (trace s) req) = true → eval (ping_status h) s = Ret VNone) ∧
  exec (ping_status h) s = mkNode (peers s) (trace s ++ [EvRequest req]).
Proof.
  repeat split.
  - intros resp v. run_request. intros -> Hcode Hdec; simpl.
    apply Z.eqb_eq in Hcode; rewrite Hcode, Hdec; done.
  - run_request. on_reply; [done|]. intros ->%failed_not_200; done.
  - run_request. on_reply; [done|].
    destruct (status_code resp =? 200); [|done].
    destruct (decoded resp) as [v|[]]; done.
Qed.

(** The single request of [request_block_header] goes to the URL that
    [block_header_url] chooses. *)
Lemma request_block_header_request node port block_hash height s :
  ∃ rest,
    trace (exec (request_block_header node port block_hash height) s) =
      trace s ++ EvRequest (GET (block_header_url node port block_hash height)) :: rest
    ∧ Forall (λ e, ∀ r, e ≠ EvRequest r) rest.
Proof.
  run_request. on_reply.
  - eexists. rewrite <- !app_assoc. split; [reflexivity|].
    repeat constructor; discriminate.
  - destruct (status_code resp =? 200); [|exists []; split; [done|constructor]].
    destruct (decoded resp) as [v|e]; simpl.
    + destruct (BlockHeader_of v) as [bh|e]; simpl.
      * exists []; split; [done|constructor].
      * destruct e; simpl; eexists; rewrite <- ?app_assoc;
          (split; [reflexivity|]); repeat constructor; discriminate.
    + destruct e; simpl; eexists; rewrite <- ?app_assoc;
        (split; [reflexivity|]); repeat constructor; discriminate.
Qed.

(** C10 [request_block_header] asks by hash whenever [block_hash] is not
    [None], whatever [height] is; by height when [block_hash] is [None]
    and [height] is not; and for the latest block when both are [None].
    It makes that one request and no other. *)
Theorem request_block_header_selector node port block_hash height s :
  let requested u := ∃ rest,
    trace (exec (request_block_header node port block_hash height) s) =
      trace s ++ EvRequest (GET u) :: rest
    ∧ Forall (λ e, ∀ r, e ≠ EvRequest r) rest in
  (block_hash ≠ VNone →
     requested (format BLOCKS_URL [VStr node; port; VStr "hash"; block_hash])) ∧
  (block_hash = VNone → height ≠ VNone →
     requested (format BLOCKS_URL [VStr node; port; VStr "height"; height])) ∧
  (block_hash = VNone → height = VNone →
     requested (format BLOCKS_URL [VStr node; port; VStr "height"; VStr "latest"])).
Proof.
  intros requested.
  pose proof (request_block_header_request node port block_hash height s) as H.
  unfold requested, FullNode.block_header_url in *.
  repeat split.
  - intros Hh. destruct block_hash; try done.
  - intros -> Hh. destruct height; try done.
  - intros -> ->. done.
Qed.

(** C2 When [request_transaction] gets a 200 response whose body carries
    all the fields of a transaction and the content hash recomputed from
    them differs from the claimed [tx_hash], it returns [None]; it leaves
    the peer registry as it was and adds to the trace its request and the
    warning only: [record_downtime] is not called. *)
Theorem request_transaction_hash_mismatch node port tx_hash s resp tx_dict tx :
  let req := GET (format TRANSACTIONS_URL [VStr node; port; tx_hash]) in
  net (trace s) req = Answer resp →
  status_code resp = 200 →
  decoded resp = Ret tx_dict →
  Transaction_of tx_dict = Ret tx →
  py_eq (Transaction_tx_hash tx) (claimed_tx_hash tx) = false →
  request_transaction node port tx_hash s =
    (Ret None,
     mkNode (peers s)
            (trace s ++ [EvRequest req;
                         EvWarn (WarnInvalidTxHash (claimed_tx_hash tx)
                                                   (Transaction_tx_hash tx))])).
Proof.
  intros req Hreply Hcode Hdec Htx Hne.
  assert (py_getitem tx_dict "tx_hash" = Ret (claimed_tx_hash tx)) as Hclaimed.
  { unfold Transaction_of in Htx.
    repeat match type of Htx with
           | (?r ≫= _) = _ => destruct r eqn:?; simpl in Htx; [|discriminate]
           end.
    injection Htx as <-. done. }
  subst req. run_request. rewrite Hreply; simpl.
  apply Z.eqb_eq in Hcode. rewrite Hcode, Hdec; simpl.
  rewrite Htx; simpl. rewrite Hclaimed; simpl. rewrite Hne; simpl.
  rewrite <- app_assoc. done.
Qed.

End RemoteClientFacts.

(** ** Relations every run respects *)

Section Stepwise.

Context (R : Node → Node → Prop) (R_preorder : PreOrder R).

Lemma stepwise_ret {A} (a : A) : stepwise R (mret a).
Proof. intros s. reflexivity. Qed.

Lemma stepwise_lift {A} (r : Result A) : stepwise R (lift r).
Proof. intros s. reflexivity. Qed.

Lemma stepwise_bind {A B} (m : M A) (k : A → M B) :
  stepwise R m → (∀ a, stepwise R (k a)) → stepwise R (m ≫= k).
Proof.
  intros Hm Hk s. unfold exec. rewrite run_bind.
  specialize (Hm s). unfold exec in Hm.
  destruct (m s) as [[a|e] s']; simpl in *; [|done].
  etrans; [exact Hm|]. apply Hk.
Qed.

Lemma stepwise_try {A} (body handler : M A) :
  stepwise R body → stepwise R handler → stepwise R (try_except body handler).
Proof.
  intros Hb Hh s. unfold exec, try_except.
  specialize (Hb s). unfold exec in Hb.
  destruct (body s) as [[a|e] s']; simpl in *; [done|].
  destruct e; simpl; try done.
  etrans; [exact Hb|]. apply Hh.
Qed.

End Stepwise.

Global Instance extends_by_preorder P : PreOrder (extends_by P).
Proof.
  split.
  - intros s. exists []. by rewrite app_nil_r.
  - intros s1 s2 s3 (d1 & H1 & F1) (d2 & H2 & F2).
    exists (d1 ++ d2). rewrite H2, H1, app_assoc, forallb_app, F1, F2. done.
Qed.

Global Instance keeps_peers_preorder : PreOrder keeps_peers.
Proof. split; unfold keeps_peers; [intros s | intros s1 s2 s3]; set_solver. Qed.

Global Instance within_bound_preorder bound : PreOrder (within_bound bound).
Proof. split; unfold within_bound; [intros s | intros s1 s2 s3]; auto. Qed.

Global Instance adds_only_preorder passed : PreOrder (adds_only passed).
Proof.
  split; unfold adds_only; [intros s p | intros s1 s2 s3 H1 H2 p]; [auto|].
  intros [Hp|Hp]%H2; [auto | by right].
Qed.

(** Take a monadic program apart along its binds, handlers and branches,
    down to the actions already known to respect the relation; what is
    left are its primitive actions. *)
Create HintDb stepwise.

Ltac stepwise_split :=
  repeat first
    [ solve [auto with stepwise]
    | apply stepwise_ret; typeclasses eauto
    | apply stepwise_lift; typeclasses eauto
    | apply stepwise_bind; [typeclasses eauto| |intros ?]
    | apply stepwise_try; [typeclasses eauto| |]
    | match goal with
      | |- stepwise _ (if ?b then _ else _) => destruct b
      | |- stepwise _ (match ?x with _ => _ end) => destruct x
      end ].

(** ** The peer registry *)

Section RegistryFacts.

Variable MAX_PEERS : Z.

Local Abbreviation Peers_add_peer := (FullNode.Peers_add_peer MAX_PEERS).

Lemma add_peer_dom h (ps : gmap string nat) :
  dom (Peers_add_peer h ps) =
    if Z.of_nat (size ps) <? MAX_PEERS then {[h]} ∪ dom ps else dom ps.
Proof.
  unfold FullNode.Peers_add_peer. destruct (_ <? _); [|done].
  destruct (ps !! h) eqn:E.
  - apply elem_of_dom_2 in E. symmetry. apply subseteq_union_1_L.
    by apply singleton_subseteq_l.
  - by rewrite dom_insert_L.
Qed.

Lemma add_peer_size h (ps : gmap string nat) :
  (size (Peers_add_peer h ps) ≤ S (size ps))%nat.
Proof.
  unfold FullNode.Peers_add_peer. destruct (_ <? _); [|lia].
  destruct (ps !! h) eqn:E; [lia|].
  rewrite map_size_insert_None by done. lia.
Qed.

Lemma add_peer_keeps_bound h (ps : gmap string nat) :
  Z.of_nat (size ps) ≤ MAX_PEERS → Z.of_nat (size (Peers_add_peer h ps)) ≤ MAX_PEERS.
Proof.
  intros Hb. pose proof (add_peer_size h ps) as Hs.
  unfold FullNode.Peers_add_peer in *.
  destruct (Z.of_nat (size ps) <? MAX_PEERS) eqn:E; [|done].
  apply Z.ltb_lt in E. lia.
Qed.

End RegistryFacts.

Section DowntimeFacts.

Variable evicts : nat → bool.

Local Abbreviation Peers_record_downtime := (FullNode.Peers_record_downtime evicts).

Lemma record_downtime_dom h (ps : gmap string nat) :
  dom (Peers_record_downtime h ps) ⊆ dom ps.
Proof.
  unfold FullNode.Peers_record_downtime. destruct (ps !! h) eqn:E; [|done].
  apply elem_of_dom_2 in E.
  destruct (evicts _); [rewrite dom_delete_L | rewrite dom_insert_L].
  - apply subseteq_difference_l. done.
  - apply union_least; [by apply singleton_subseteq_l | done].
Qed.

Lemma record_downtime_size h (ps : gmap string nat) :
  (size (Peers_record_downtime h ps) ≤ size ps)%nat.
Proof.
  rewrite <- !size_dom. apply subseteq_size, record_downtime_dom.
Qed.

End DowntimeFacts.

(** ** Peer discovery and admission *)

(** Unfold the primitive actions of the node. *)
Ltac run_prim :=
  cbv [FullNode.get_peers_count FullNode.get_all_peers FullNode.add_peer
       FullNode.record_downtime FullNode.requests_get FullNode.requests_post
       FullNode.send FullNode.json_loads FullNode.logger_warn
       FullNode.call_mine_block FullNode.call_add_block
       FullNode.remove_unconfirmed_transactions FullNode.read_exit_flag
       eval exec mbind mret M_bind M_ret bind ret try_except lift emit fst snd].

(** A status request in a run of events whose first part has none. *)
Lemma status_event_split (block added pre rest : list Event) (x : Event) :
  forallb (λ e, negb (status_event e)) block = true →
  status_event x = true →
  block ++ added = pre ++ x :: rest →
  ∃ pre', pre = block ++ pre' ∧ added = pre' ++ x :: rest.
Proof.
  revert pre. induction block as [|b block IH]; intros pre Hblock Hx Heq.
  - by exists pre.
  - simpl in Hblock. apply andb_true_iff in Hblock as [Hb Hblock].
    destruct pre as [|y pre]; simpl in Heq.
    + injection Heq as -> _. by rewrite Hx in Hb.
    + injection Heq as <- Heq.
      destruct (IH pre Hblock Hx Heq) as (pre' & -> & ->). by exists pre'.
Qed.

(** Nothing is requested in a run that adds nothing. *)
Lemma requested_at_nothing (start t : list Event) (req : Request) :
  ¬ requested_at start start t req.
Proof.
  intros [[pre ->] [rest Heq]]. rewrite <- app_assoc in Heq.
  apply (f_equal length) in Heq. rewrite !length_app in Heq. simpl in Heq. lia.
Qed.

Global Instance same_registry_preorder : PreOrder same_registry.
Proof.
  split.
  - by intros s.
  - intros s1 s2 s3 H1 H2. unfold same_registry in *. congruence.
Qed.

Global Instance keeps_entries_preorder : PreOrder keeps_entries.
Proof.
  split.
  - intros s. unfold keeps_entries. reflexivity.
  - intros s1 s2 s3 H1 H2. unfold keeps_entries in *. by transitivity (peers s2).
Qed.

Section AdmissionFacts.

Variables (NETWORK FULL_NODE_PORT : PyVal) (MIN_PEERS MAX_PEERS : Z).
Variable host : string.
Variable evicts : nat → bool.
Variable net : list Event → Request → Reply.

Local Abbreviation Peers_add_peer := (FullNode.Peers_add_peer MAX_PEERS).
Local Abbreviation get_peers_count := FullNode.get_peers_count.
Local Abbreviation get_all_peers := FullNode.get_all_peers.
Local Abbreviation add_peer := (FullNode.add_peer MAX_PEERS).
Local Abbreviation record_downtime := (FullNode.record_downtime evicts).
Local Abbreviation send := (FullNode.send net).
Local Abbreviation logger_warn := FullNode.logger_warn.
Local Abbreviation request_nodes := (FullNode.request_nodes evicts net).
Local Abbreviation find_known_peers_loop :=
  (FullNode.find_known_peers_loop FULL_NODE_PORT evicts net).
Local Abbreviation find_known_peers := (FullNode.find_known_peers FULL_NODE_PORT evicts net).
Local Abbreviation try_candidate :=
  (FullNode.try_candidate NETWORK FULL_NODE_PORT MAX_PEERS host net).
Local Abbreviation check_peers_loop :=
  (FullNode.check_peers_loop NETWORK FULL_NODE_PORT MAX_PEERS host net).
Local Abbreviation check_peers :=
  (FullNode.check_peers NETWORK FULL_NODE_PORT MIN_PEERS MAX_PEERS host evicts net).
Local Abbreviation status_request := (FullNode.status_request FULL_NODE_PORT).
Local Abbreviation connect_request := (FullNode.connect_request FULL_NODE_PORT host).
Local Abbreviation status_check := (FullNode.status_check NETWORK).
Local Abbreviation connect_check := FullNode.connect_check.
Local Abbreviation checks_pass_at :=
  (FullNode.checks_pass_at NETWORK FULL_NODE_PORT host net).
Local Abbreviation passed_checks :=
  (FullNode.passed_checks NETWORK FULL_NODE_PORT host net).
Local Abbreviation peer_lists_answered := (FullNode.peer_lists_answered net).
Local Abbreviation unchanging := (Broadcast.unchanging net).
Local Abbreviation reported := (Discovery.reported FULL_NODE_PORT net).
Local Abbreviation reports := (Discovery.reports FULL_NODE_PORT net).

(** The admission pass, from relations its two building blocks respect. *)
Section Pass.

Context (R : Node → Node → Prop) `{!PreOrder R}.
Hypothesis R_request_nodes : ∀ node port, stepwise R (request_nodes node port).
Hypothesis R_try_candidate : ∀ peer, stepwise R (try_candidate peer).

Lemma get_peers_count_stepwise : stepwise R get_peers_count.
Proof. intros s. reflexivity. Qed.

Lemma get_all_peers_stepwise : stepwise R get_all_peers.
Proof. intros s. reflexivity. Qed.

Local Hint Resolve get_peers_count_stepwise get_all_peers_stepwise : stepwise.

Lemma find_known_peers_loop_stepwise peers known :
  stepwise R (find_known_peers_loop peers known).
Proof.
  revert known. induction peers as [|peer rest IH]; intros known; simpl.
  - stepwise_split.
  - stepwise_split.
Qed.

Local Hint Resolve find_known_peers_loop_stepwise : stepwise.

Lemma find_known_peers_stepwise : stepwise R find_known_peers.
Proof. unfold FullNode.find_known_peers. stepwise_split. Qed.

Local Hint Resolve find_known_peers_stepwise : stepwise.

Lemma check_peers_loop_stepwise known : stepwise R (check_peers_loop known).
Proof.
  induction known as [|peer rest IH]; simpl.
  - stepwise_split.
  - stepwise_split.
Qed.

Local Hint Resolve check_peers_loop_stepwise : stepwise.

Lemma check_peers_stepwise : stepwise R check_peers.
Proof. unfold FullNode.check_peers. stepwise_split. Qed.

End Pass.

(** What one candidate's admission does to the registry. *)
Lemma try_candidate_peers peer s :
  peers (exec (try_candidate peer) s) =
    if checks_pass_at (trace s) peer then Peers_add_peer peer (peers s) else peers s.
Proof.
  unfold FullNode.checks_pass_at, FullNode.status_check, FullNode.connect_check,
    FullNode.status_request, FullNode.connect_request, FullNode.try_candidate.
  run_prim.
  destruct (net (trace s) _) as [|resp]; simpl; [done|].
  destruct (status_code resp =? 200); simpl; [|done].
  destruct (decoded resp) as [v|e]; simpl; [|destruct e; done].
  destruct (py_eq v NETWORK); simpl; [|done].
  destruct (net (trace s ++ _) _) as [|resp']; simpl; [done|].
  destruct (status_code resp' =? 202); simpl; [|done].
  destruct (decoded resp') as [v'|e]; simpl; [|destruct e; done].
  destruct (py_get v' "success") as [w|e]; simpl; [|destruct e; done].
  destruct (is_True w); done.
Qed.

Lemma try_candidate_bound bound peer :
  MAX_PEERS ≤ bound → stepwise (within_bound bound) (try_candidate peer).
Proof.
  intros Hmax s Hb. rewrite try_candidate_peers.
  destruct (checks_pass_at _ _); [|done].
  pose proof (add_peer_size MAX_PEERS peer (peers s)) as Hs.
  unfold FullNode.Peers_add_peer in *.
  destruct (Z.of_nat (size (peers s)) <? MAX_PEERS) eqn:E; [|done].
  apply Z.ltb_lt in E. lia.
Qed.

Lemma try_candidate_keeps peer : stepwise keeps_peers (try_candidate peer).
Proof.
  intros s. unfold keeps_peers. rewrite try_candidate_peers.
  destruct (checks_pass_at _ _); [|done].
  rewrite add_peer_dom. destruct (_ <? _); set_solver.
Qed.

Lemma try_candidate_adds_only peer : stepwise (adds_only passed_checks) (try_candidate peer).
Proof.
  intros s p. rewrite try_candidate_peers.
  destruct (checks_pass_at _ _) eqn:E; [|auto].
  rewrite add_peer_dom. destruct (_ <? _); [|auto].
  intros [->%elem_of_singleton|Hp]%elem_of_union; [|auto].
  right. by exists (trace s).
Qed.

(** What fetching a peer list does to the registry. *)
Lemma request_nodes_dom node port s :
  dom (peers (exec (request_nodes node port) s)) ⊆ dom (peers s).
Proof.
  unfold FullNode.request_nodes. run_prim.
  destruct (net _ _) as [|resp]; simpl; [apply record_downtime_dom|].
  destruct (status_code resp =? 200); simpl; [|done].
  destruct (decoded resp) as [v|e]; simpl; [done|].
  destruct e; simpl; try done. apply record_downtime_dom.
Qed.

Lemma request_nodes_bound bound node port :
  stepwise (within_bound bound) (request_nodes node port).
Proof.
  intros s Hb. pose proof (request_nodes_dom node port s) as Hd.
  apply subseteq_size in Hd. rewrite !size_dom in Hd. lia.
Qed.

Lemma request_nodes_adds_only passed node port :
  stepwise (adds_only passed) (request_nodes node port).
Proof. intros s p Hp. left. by apply (request_nodes_dom node port s). Qed.

Lemma request_nodes_keeps node port :
  peer_lists_answered → stepwise keeps_peers (request_nodes node port).
Proof.
  intros Hok s. unfold keeps_peers, FullNode.request_nodes. run_prim.
  destruct (Hok (trace s) (format NODES_URL [VStr node; port]) eq_refl)
    as (resp & -> & Hdec); simpl.
  destruct (status_code resp =? 200); simpl; [|done].
  destruct (decoded resp) as [v|e]; simpl; [done|].
  destruct e; simpl; done.
Qed.

Lemma check_peers_bound bound :
  MAX_PEERS ≤ bound → stepwise (within_bound bound) check_peers.
Proof.
  intros Hmax. apply check_peers_stepwise; [typeclasses eauto| |].
  - intros node port. apply request_nodes_bound.
  - intros peer. by apply try_candidate_bound.
Qed.

(** Every registry that can arise holds at most [MAX_PEERS] peers. *)
Lemma registry_state_bound (ps : gmap string nat) :
  0 ≤ MAX_PEERS → FullNode.registry_state MAX_PEERS evicts ps →
  Z.of_nat (size ps) ≤ MAX_PEERS.
Proof.
  intros Hmax Hps. induction Hps as [|h ps _ IH|h ps _ IH].
  - by rewrite map_size_empty.
  - by apply add_peer_keeps_bound.
  - pose proof (record_downtime_size evicts h ps). lia.
Qed.

(** C3 Whatever the remote peers answer and however many candidates
    they report, the admission pass started from a peer set of at most
    [MAX_PEERS] entries leaves at most [MAX_PEERS] entries, also when it
    ends by raising; from any peer set at all, it leaves no more entries
    than the larger of [MAX_PEERS] and the number it started with. *)
Theorem check_peers_respects_max_peers (s : Node) :
  (Z.of_nat (size (peers s)) ≤ MAX_PEERS →
   Z.of_nat (size (peers (exec check_peers s))) ≤ MAX_PEERS) ∧
  Z.of_nat (size (peers (exec check_peers s))) ≤
    Z.max MAX_PEERS (Z.of_nat (size (peers s))).
Proof.
  split.
  - by apply check_peers_bound.
  - apply (check_peers_bound (Z.max MAX_PEERS (Z.of_nat (size (peers s))))); lia.
Qed.

(** *** The candidates an admission pass tries *)

Lemma check_peers_loop_cons peer rest s :
  check_peers_loop (peer :: rest) s =
    if MAX_PEERS <=? Z.of_nat (size (peers s)) then (Ret tt, s)
    else if String.eqb peer host then check_peers_loop rest s
    else match try_candidate peer s with
         | (Ret _, s') => check_peers_loop rest s'
         | (Raise e, s') => (Raise e, s')
         end.
Proof.
  simpl. rewrite run_bind. unfold FullNode.get_peers_count.
  destruct (_ <=? _); [done|]. destruct (String.eqb _ _); [done|].
  rewrite run_bind. by destruct (try_candidate peer s) as [[[]|e] s'].
Qed.

(** A candidate's trial starts with its status request and makes no
    other status request. *)
Lemma try_candidate_trace peer s :
  ∃ block,
    trace (exec (try_candidate peer) s) =
      trace s ++ EvRequest (status_request peer) :: block ∧
    forallb (λ e, negb (status_event e)) block = true.
Proof.
  unfold FullNode.status_request, FullNode.try_candidate. run_prim.
  destruct (net (trace s) _) as [|resp]; simpl;
    [eexists; split; [reflexivity|reflexivity]|].
  destruct (status_code resp =? 200); simpl;
    [|eexists; split; [reflexivity|reflexivity]].
  destruct (decoded resp) as [v|e]; simpl;
    [|destruct e; eexists; (split; [reflexivity|reflexivity])].
  destruct (py_eq v NETWORK); simpl;
    [|eexists; split; [reflexivity|reflexivity]].
  destruct (net (trace s ++ _) _) as [|resp']; simpl;
    [eexists; split; [by rewrite <- app_assoc|reflexivity]|].
  destruct (status_code resp' =? 202); simpl;
    [|eexists; split; [by rewrite <- app_assoc|reflexivity]].
  destruct (decoded resp') as [v'|e]; simpl;
    [|destruct e; eexists; (split; [by rewrite <- app_assoc|reflexivity])].
  destruct (py_get v' "success") as [w|e]; simpl;
    [|destruct e; eexists; (split; [by rewrite <- app_assoc|reflexivity])].
  destruct (is_True w); simpl; eexists;
    (split; [by rewrite <- ?app_assoc|reflexivity]).
Qed.

Lemma try_candidate_joined peer s :
  Z.of_nat (size (peers s)) < MAX_PEERS →
  checks_pass_at (trace s) peer = true →
  peer ∈ dom (peers (exec (try_candidate peer) s)).
Proof.
  intros Hroom Hpass. rewrite try_candidate_peers, Hpass, add_peer_dom.
  apply Z.ltb_lt in Hroom. rewrite Hroom.
  apply elem_of_union_l. by apply elem_of_singleton.
Qed.

Lemma try_candidate_dom peer s p :
  p ∈ dom (peers (exec (try_candidate peer) s)) →
  p ∈ dom (peers s) ∨ (p = peer ∧ checks_pass_at (trace s) peer = true).
Proof.
  rewrite try_candidate_peers. destruct (checks_pass_at _ _); [|auto].
  rewrite add_peer_dom. destruct (_ <? _); [|auto].
  intros [->%elem_of_singleton|Hp]%elem_of_union; auto.
Qed.

Lemma check_peers_loop_keeps known s :
  dom (peers s) ⊆ dom (peers (exec (check_peers_loop known) s)).
Proof.
  apply (check_peers_loop_stepwise keeps_peers). apply try_candidate_keeps.
Qed.

Lemma check_peers_loop_size known s :
  Z.of_nat (size (peers s)) ≤ Z.of_nat (size (peers (exec (check_peers_loop known) s))).
Proof.
  pose proof (check_peers_loop_keeps known s) as Hd.
  apply subseteq_size in Hd. rewrite !size_dom in Hd. lia.
Qed.

Lemma check_peers_loop_extends known s :
  ∃ added, trace (exec (check_peers_loop known) s) = trace s ++ added.
Proof.
  revert s. induction known as [|q rest IH]; intros s.
  - exists []. by rewrite app_nil_r.
  - unfold exec in *. rewrite check_peers_loop_cons.
    destruct (_ <=? _); [exists []; by rewrite app_nil_r|].
    destruct (String.eqb _ _); [apply IH|].
    destruct (try_candidate_trace q s) as (block & Hblock & _).
    unfold exec in Hblock. destruct (try_candidate q s) as [[[]|e] s']; simpl in *.
    + destruct (IH s') as [added Hadded]. unfold exec in Hadded.
      rewrite Hadded, Hblock, <- app_assoc. by eexists.
    + rewrite Hblock. by eexists.
Qed.

(** A status request the loop made is the start of the trial of a
    candidate of its list other than the node itself; when both checks
    succeeded then, the candidate is a peer at the end. *)
Lemma check_peers_loop_tried known s t p :
  requested_at (trace s) (trace (exec (check_peers_loop known) s)) t (status_request p) →
  p ∈ known ∧ p ≠ host ∧
  (checks_pass_at t p = true → p ∈ dom (peers (exec (check_peers_loop known) s))).
Proof.
  revert s t. induction known as [|q rest IH]; intros s t.
  - intros H. by apply requested_at_nothing in H.
  - unfold exec. rewrite check_peers_loop_cons.
    destruct (MAX_PEERS <=? _) eqn:Hfull;
      [intros H; by apply requested_at_nothing in H|].
    apply Z.leb_gt in Hfull.
    destruct (String.eqb q host) eqn:Hhost.
    { intros H. destruct (IH s t H) as (Hin & Hne & Hadd).
      split; [by apply list_elem_of_further|]. done. }
    apply String.eqb_neq in Hhost.
    destruct (try_candidate_trace q s) as (block & Hblock & Hquiet).
    pose proof (try_candidate_joined q s Hfull) as Hjoined.
    unfold exec in Hblock, Hjoined, IH.
    destruct (try_candidate q s) as [r s'] eqn:Hrun; simpl in Hblock, Hjoined.
    assert (∃ added,
      trace (snd (match r with
                  | Ret _ => check_peers_loop rest s'
                  | Raise e => (Raise e, s')
                  end)) = trace s' ++ added ∧
      dom (peers s') ⊆
        dom (peers (snd (match r with
                         | Ret _ => check_peers_loop rest s'
                         | Raise e => (Raise e, s')
                         end))) ∧
      (∀ pre rest', added = pre ++ EvRequest (status_request p) :: rest' →
         p ∈ rest ∧ p ≠ host ∧
         (checks_pass_at (trace s' ++ pre) p = true →
          p ∈ dom (peers (snd (match r with
                               | Ret _ => check_peers_loop rest s'
                               | Raise e => (Raise e, s')
                               end))))))
      as (added & Hadded & Hkeeps & Hrest).
    { destruct r as [[]|e]; simpl.
      - destruct (check_peers_loop_extends rest s') as [added Hadded].
        exists added. split; [done|]. split; [apply check_peers_loop_keeps|].
        intros pre rest' ->. apply IH. split; [by eexists|].
        exists rest'. unfold exec in Hadded. by rewrite Hadded, <- app_assoc.
      - exists []. split; [by rewrite app_nil_r|]. split; [done|].
        intros pre rest' Heq. by destruct pre. }
    intros [[pre ->] [rest' Hfinal]].
    rewrite Hadded, Hblock, <- !app_assoc in Hfinal.
    apply app_inv_head in Hfinal. simpl in Hfinal.
    destruct pre as [|x pre]; simpl in Hfinal.
    + unfold FullNode.status_request in Hfinal. injection Hfinal as -> _.
      rewrite app_nil_r.
      split; [apply list_elem_of_here|]. split; [done|].
      intros Hpass. apply Hkeeps. by apply Hjoined.
    + injection Hfinal as <- Hfinal.
      destruct (status_event_split block added pre rest' (EvRequest (status_request p))
                  Hquiet eq_refl Hfinal)
        as (pre' & -> & Hin).
      destruct (Hrest pre' rest' Hin) as (Hp & Hne & Hadd).
      split; [by apply list_elem_of_further|]. split; [done|].
      rewrite Hblock, <- app_assoc in Hadd. done.
Qed.

(** A peer at the end of the loop was one at its start or passed both
    checks when the loop tried it. *)
Lemma check_peers_loop_sound known s p :
  p ∈ dom (peers (exec (check_peers_loop known) s)) →
  p ∈ dom (peers s) ∨
  ∃ t, requested_at (trace s) (trace (exec (check_peers_loop known) s)) t
         (status_request p) ∧
       checks_pass_at t p = true.
Proof.
  revert s. induction known as [|q rest IH]; intros s.
  - auto.
  - unfold exec. rewrite check_peers_loop_cons.
    destruct (MAX_PEERS <=? _); [auto|].
    destruct (String.eqb q host); [apply IH|].
    destruct (try_candidate_trace q s) as (block & Hblock & _).
    pose proof (try_candidate_dom q s p) as Hdom.
    unfold exec in Hblock, Hdom, IH.
    destruct (try_candidate q s) as [[[]|e] s'] eqn:Hrun; simpl in *.
    + intros Hp. destruct (check_peers_loop_extends rest s') as [added Hadded].
      unfold exec in Hadded.
      destruct (IH s' Hp) as [Hp'|(t & [[pre ->] [rest' Hfinal]] & Hpass)].
      * destruct (Hdom Hp') as [?|[-> Hpass]]; [auto|].
        right. exists (trace s). split; [|done].
        split; [exists []; by rewrite app_nil_r|].
        exists (block ++ added). by rewrite Hadded, Hblock, <- app_assoc.
      * right. exists (trace s' ++ pre). split; [|done].
        split; [|by exists rest'].
        exists (EvRequest (status_request q) :: block ++ pre).
        by rewrite Hblock, <- app_assoc.
    + intros Hp. destruct (Hdom Hp) as [?|[-> Hpass]]; [auto|].
      right. exists (trace s). split; [|done].
      split; [exists []; by rewrite app_nil_r|]. by exists block.
Qed.

(** A loop that returns with room left has tried every candidate of its
    list but the node itself. *)
Lemma check_peers_loop_complete known s p :
  eval (check_peers_loop known) s = Ret tt →
  Z.of_nat (size (peers (exec (check_peers_loop known) s))) < MAX_PEERS →
  p ∈ known → p ≠ host →
  ∃ t, requested_at (trace s) (trace (exec (check_peers_loop known) s)) t
         (status_request p).
Proof.
  revert s. induction known as [|q rest IH]; intros s.
  - intros _ _ Hin. by apply elem_of_nil in Hin.
  - unfold eval, exec. rewrite check_peers_loop_cons.
    destruct (MAX_PEERS <=? _) eqn:Hfull.
    { apply Z.leb_le in Hfull. simpl. lia. }
    destruct (String.eqb q host) eqn:Hhost.
    { apply String.eqb_eq in Hhost. subst q.
      intros Hret Hroom [->|Hin]%elem_of_cons Hne; [done|]. by apply IH. }
    destruct (try_candidate_trace q s) as (block & Hblock & _).
    unfold eval, exec in Hblock, IH.
    destruct (try_candidate q s) as [[[]|e] s'] eqn:Hrun; simpl in *; [|done].
    destruct (check_peers_loop_extends rest s') as [added Hadded].
    unfold exec in Hadded.
    intros Hret Hroom [->|Hin]%elem_of_cons Hne.
    + exists (trace s). split; [exists []; by rewrite app_nil_r|].
      exists (block ++ added). by rewrite Hadded, Hblock, <- app_assoc.
    + destruct (IH s' Hret Hroom Hin Hne) as (t & [pre ->] & rest' & Hfinal).
      exists (trace s' ++ pre). split; [|by exists rest'].
      exists (EvRequest (status_request q) :: block ++ pre).
      by rewrite Hblock, <- app_assoc.
Qed.

Lemma find_known_peers_dom s :
  dom (peers (exec find_known_peers s)) ⊆ dom (peers s).
Proof.
  intros p Hp.
  destruct (find_known_peers_stepwise (adds_only (λ _, False))
              (request_nodes_adds_only _) s p Hp) as [?|[]].
  done.
Qed.

(** The pass, once it gets to its loop. *)
Lemma check_peers_run s known :
  Z.of_nat (size (peers s)) < MIN_PEERS →
  eval find_known_peers s = Ret known →
  check_peers s = check_peers_loop (elements known) (exec find_known_peers s).
Proof.
  intros Hmin Hknown. unfold FullNode.check_peers.
  rewrite run_bind. unfold FullNode.get_peers_count at 1.
  apply Z.ltb_lt in Hmin. rewrite Hmin. rewrite run_bind.
  unfold eval, exec in *.
  destruct (find_known_peers s) as [r s']. simpl in *. by subst r.
Qed.

(** *** A second pass in a world that does not change *)

Lemma add_peer_present q (ps : gmap string nat) :
  q ∈ dom ps → Peers_add_peer q ps = ps.
Proof.
  intros Hq. unfold FullNode.Peers_add_peer. destruct (_ <? _); [|done].
  destruct (ps !! q) eqn:E; [done|]. by apply not_elem_of_dom in E.
Qed.

Lemma checks_pass_unchanging t t' q :
  unchanging → checks_pass_at t q = checks_pass_at t' q.
Proof.
  intros Hfixed. unfold FullNode.checks_pass_at.
  by rewrite (Hfixed t t'), (Hfixed (t ++ _) (t' ++ [EvRequest (status_request q)])).
Qed.

Lemma try_candidate_eval_unchanging q s u :
  unchanging → eval (try_candidate q) s = eval (try_candidate q) u.
Proof.
  intros Hfixed. unfold FullNode.try_candidate. run_prim.
  rewrite (Hfixed (trace s) (trace u)).
  destruct (net (trace u) _) as [|resp]; simpl; [done|].
  destruct (status_code resp =? 200); simpl; [|done].
  destruct (decoded resp) as [v|e]; simpl; [|destruct e; done].
  destruct (py_eq v NETWORK); simpl; [|done].
  rewrite (Hfixed (trace s ++ _) (trace u ++ [EvRequest (GET (format STATUS_URL [VStr q; FULL_NODE_PORT]))])).
  destruct (net (trace u ++ _) _) as [|resp']; simpl; [done|].
  destruct (status_code resp' =? 202); simpl; [|done].
  destruct (decoded resp') as [v'|e]; simpl; [|destruct e; done].
  destruct (py_get v' "success") as [w|e]; simpl; [|destruct e; done].
  destruct (is_True w); done.
Qed.

(** Run from a registry that an earlier run of the same loop left, the
    loop leaves the registry as it is. *)
Lemma check_peers_loop_again known s u :
  unchanging →
  peers u = peers (exec (check_peers_loop known) s) →
  peers (exec (check_peers_loop known) u) = peers u.
Proof.
  intros Hfixed. revert s u. induction known as [|q rest IH]; intros s u.
  - done.
  - pose proof (check_peers_loop_size (q :: rest) s) as Hsize.
    unfold exec in *. rewrite !check_peers_loop_cons in *.
    destruct (MAX_PEERS <=? Z.of_nat (size (peers u))) eqn:Hfull; [done|].
    apply Z.leb_gt in Hfull. intros Hu. rewrite <- Hu in Hsize.
    destruct (MAX_PEERS <=? Z.of_nat (size (peers s))) eqn:Hfull';
      [apply Z.leb_le in Hfull'; lia|].
    apply Z.leb_gt in Hfull'.
    destruct (String.eqb q host); [by apply (IH s)|].
    pose proof (try_candidate_eval_unchanging q s u Hfixed) as Heval.
    pose proof (try_candidate_peers q u) as Hpu.
    pose proof (try_candidate_joined q s Hfull') as Hjoined.
    rewrite (checks_pass_unchanging (trace u) (trace s) q Hfixed) in Hpu.
    unfold eval, exec in Heval, Hpu, Hjoined.
    destruct (try_candidate q s) as [rs s'], (try_candidate q u) as [ru u'].
    simpl in Heval, Hpu, Hjoined. subst ru.
    assert (peers u' = peers u) as Hsame.
    { rewrite Hpu. destruct (checks_pass_at (trace s) q); [|done].
      apply add_peer_present. rewrite Hu.
      destruct rs as [[]|e]; simpl; [|by apply Hjoined].
      apply (check_peers_loop_keeps rest s'). by apply Hjoined. }
    destruct rs as [[]|e]; simpl in *; [|done].
    rewrite <- Hsame. apply (IH s'). by rewrite Hsame.
Qed.

Lemma request_nodes_same_registry node port :
  peer_lists_answered → stepwise same_registry (request_nodes node port).
Proof.
  intros Hok s. unfold same_registry, FullNode.request_nodes. run_prim.
  destruct (Hok (trace s) (format NODES_URL [VStr node; port]) eq_refl)
    as (resp & -> & Hdec); simpl.
  destruct (status_code resp =? 200); simpl; [|done].
  destruct (decoded resp) as [v|e]; simpl; [done|].
  destruct e; simpl; done.
Qed.

Lemma find_known_peers_same_registry s :
  peer_lists_answered → peers (exec find_known_peers s) = peers s.
Proof.
  intros Hok. apply (find_known_peers_stepwise same_registry).
  intros node port. by apply request_nodes_same_registry.
Qed.

(** C4 (amended) Take an admission pass that gets to its loop: it starts
    below [MIN_PEERS] and discovery returns the candidates [known].  The
    pass tries a candidate by sending it a status request; say that both
    checks succeed there when that request is answered with status code
    200 and a body equal to the local network descriptor, and the connect
    request that follows it is answered with status code 202 and a body
    whose ["success"] is true.  Then (1) the peers at the end are the
    peers discovery left and the candidates whose trial saw both checks
    succeed, nobody else, discovery itself adding nobody; (2) the pass
    tries only discovered candidates, never the node itself; (3) a pass
    that returns below [MAX_PEERS] has tried every discovered candidate
    but the node itself.  And (4) for one candidate that is not yet a
    peer, tried while the set is below [MAX_PEERS]: it is a peer
    afterwards exactly when both checks succeed, so failing one of them
    alone keeps it out. *)
Theorem admission_iff_both_checks (s : Node) (known : gset string) :
  Z.of_nat (size (peers s)) < MIN_PEERS →
  eval find_known_peers s = Ret known →
  let discovered := exec find_known_peers s in
  let final := exec check_peers s in
  let tried t p :=
    requested_at (trace discovered) (trace final) t (status_request p) in
  ((∀ p, p ∈ dom (peers final) ↔
         p ∈ dom (peers discovered) ∨ ∃ t, tried t p ∧ checks_pass_at t p = true) ∧
   dom (peers discovered) ⊆ dom (peers s)) ∧
  (∀ t p, tried t p → p ∈ known ∧ p ≠ host) ∧
  (eval check_peers s = Ret tt →
   Z.of_nat (size (peers final)) < MAX_PEERS →
   ∀ p, p ∈ known → p ≠ host → ∃ t, tried t p) ∧
  (∀ u peer,
     peer ∉ dom (peers u) →
     Z.of_nat (size (peers u)) < MAX_PEERS →
     (peer ∈ dom (peers (exec (try_candidate peer) u)) ↔
      status_check (net (trace u) (status_request peer)) = true ∧
      connect_check (net (trace u ++ [EvRequest (status_request peer)])
                         (connect_request peer)) = true)).
Proof.
  intros Hmin Hknown discovered final tried.
  assert (exec check_peers s = exec (check_peers_loop (elements known)) discovered)
    as Hexec by (unfold exec; by rewrite (check_peers_run s known)).
  assert (eval check_peers s = eval (check_peers_loop (elements known)) discovered)
    as Heval by (unfold eval; by rewrite (check_peers_run s known)).
  subst tried final. rewrite Hexec, Heval.
  split; [split|split; [|split]].
  - intros p. split.
    + apply check_peers_loop_sound.
    + intros [Hp|(t & Htried & Hpass)].
      * by apply check_peers_loop_keeps.
      * by apply (check_peers_loop_tried _ _ _ _ Htried).
  - apply find_known_peers_dom.
  - intros t p Htried.
    destruct (check_peers_loop_tried _ _ _ _ Htried) as (Hin & Hne & _).
    by apply elem_of_elements in Hin.
  - intros Hret Hroom p Hin Hne.
    apply check_peers_loop_complete; [done|done| |done].
    by apply elem_of_elements.
  - intros u peer Hnew Hroom. rewrite try_candidate_peers.
    unfold FullNode.checks_pass_at. rewrite <- andb_true_iff.
    destruct (_ && _); [|split; [done|discriminate]].
    rewrite add_peer_dom. apply Z.ltb_lt in Hroom. rewrite Hroom.
    split; [done|]. intros _. apply elem_of_union_l. by apply elem_of_singleton.
Qed.

Lemma request_nodes_keeps_entries node port :
  peer_lists_answered → stepwise keeps_entries (request_nodes node port).
Proof.
  intros Hok s. unfold keeps_entries.
  by rewrite (request_nodes_same_registry node port Hok s).
Qed.

Lemma try_candidate_keeps_entries peer : stepwise keeps_entries (try_candidate peer).
Proof.
  intros s. unfold keeps_entries. rewrite try_candidate_peers.
  destruct (checks_pass_at _ _); [|done].
  unfold FullNode.Peers_add_peer. destruct (_ <? _); [|done].
  destruct (peers s !! peer) eqn:E; [done|]. by apply insert_subseteq.
Qed.

(** *** What discovery finds *)

Lemma find_known_peers_loop_cons q rest known s :
  find_known_peers_loop (q :: rest) known s =
    match reported (trace s) q with
    | Ret added =>
        find_known_peers_loop rest (known ∪ list_to_set added)
          (exec (request_nodes q FULL_NODE_PORT) s)
    | Raise e => (Raise e, exec (request_nodes q FULL_NODE_PORT) s)
    end.
Proof.
  simpl. unfold FullNode.request_nodes, Discovery.reported. run_prim.
  destruct (net (trace s) _) as [|resp]; simpl.
  { by rewrite union_empty_r_L. }
  destruct (status_code resp =? 200); simpl; [|by rewrite union_empty_r_L].
  destruct (decoded resp) as [nodes|e]; simpl.
  - destruct (is_None nodes); simpl; [by rewrite union_empty_r_L|].
    destruct (py_getitem nodes "full_nodes") as [full_nodes|e]; simpl; [|done].
    destruct (iter_addresses full_nodes) as [added|e]; simpl; done.
  - destruct e; simpl; try done. by rewrite union_empty_r_L.
Qed.

Lemma reported_unchanging t t' q : unchanging → reported t q = reported t' q.
Proof. intros Hfixed. unfold Discovery.reported. by rewrite (Hfixed t t'). Qed.

Lemma find_known_peers_loop_unchanging nodes known s u :
  unchanging →
  eval (find_known_peers_loop nodes known) s = eval (find_known_peers_loop nodes known) u.
Proof.
  intros Hfixed. revert known s u.
  induction nodes as [|q rest IH]; intros known s u; [done|].
  unfold eval. rewrite !find_known_peers_loop_cons.
  rewrite (reported_unchanging (trace s) (trace u) q Hfixed).
  destruct (reported (trace u) q); [apply IH|done].
Qed.

(** In a world that does not change, what discovery returns depends on
    the registry alone. *)
Lemma find_known_peers_unchanging s u :
  unchanging → peers s = peers u →
  eval find_known_peers s = eval find_known_peers u.
Proof.
  intros Hfixed Hpeers. unfold FullNode.find_known_peers, eval.
  rewrite !run_bind. unfold FullNode.get_all_peers. rewrite Hpeers.
  by apply find_known_peers_loop_unchanging.
Qed.

(** The candidates are the addresses discovery started with and those
    the peers it asked report. *)
Lemma find_known_peers_loop_reports nodes known s known' :
  eval (find_known_peers_loop nodes known) s = Ret known' →
  known ⊆ known' ∧
  (∀ a, a ∈ known' → a ∈ known ∨ ∃ q, q ∈ nodes ∧ reports q a) ∧
  (unchanging → ∀ q a, q ∈ nodes → reports q a → a ∈ known').
Proof.
  revert known s. induction nodes as [|q rest IH]; intros known s.
  - intros [= ->]. split; [done|]. split; [auto|].
    intros _ q a Hin. by apply elem_of_nil in Hin.
  - unfold eval. rewrite find_known_peers_loop_cons.
    destruct (reported (trace s) q) as [added|e] eqn:Hrep; [|discriminate].
    intros H. destruct (IH _ _ H) as (Hsub & Hsound & Hcompl).
    split; [|split].
    + etrans; [apply union_subseteq_l|exact Hsub].
    + intros a Ha.
      destruct (Hsound a Ha) as [[?|Hnew%elem_of_list_to_set]%elem_of_union
                                |(q' & Hq' & Hrep')].
      * by left.
      * right. exists q. split; [apply list_elem_of_here|].
        by exists (trace s), added.
      * right. exists q'. split; [by apply list_elem_of_further|done].
    + intros Hfixed q' a [->|Hin]%elem_of_cons Hrep'.
      * destruct Hrep' as (t & added' & Hrep' & Ha).
        rewrite (reported_unchanging t (trace s) q Hfixed), Hrep in Hrep'.
        injection Hrep' as <-. apply Hsub, elem_of_union_r.
        by apply elem_of_list_to_set.
      * by apply (Hcompl Hfixed q').
Qed.

Lemma find_known_peers_reports s known :
  eval find_known_peers s = Ret known →
  dom (peers s) ⊆ known ∧
  (∀ a, a ∈ known → a ∈ dom (peers s) ∨ ∃ q, q ∈ dom (peers s) ∧ reports q a) ∧
  (unchanging → ∀ q a, q ∈ dom (peers s) → reports q a → a ∈ known).
Proof.
  unfold FullNode.find_known_peers, eval. rewrite run_bind.
  unfold FullNode.get_all_peers at 1. cbv beta iota zeta.
  intros H. destruct (find_known_peers_loop_reports _ _ _ _ H) as (Hsub & Hsound & Hcompl).
  split; [done|]. split.
  - intros a Ha. destruct (Hsound a Ha) as [?|(q & Hq & Hrep)]; [by left|].
    right. exists q. split; [by apply elem_of_elements|done].
  - intros Hfixed q a Hq. apply (Hcompl Hfixed). by apply elem_of_elements.
Qed.

(** The second of two passes, when the first got to its loop and the
    second did too and found the same candidates. *)
Lemma check_peers_again s0 known :
  unchanging → peer_lists_answered →
  Z.of_nat (size (peers s0)) < MIN_PEERS →
  eval find_known_peers s0 = Ret known →
  eval find_known_peers (exec check_peers s0) = Ret known →
  peers (exec check_peers (exec check_peers s0)) = peers (exec check_peers s0).
Proof.
  intros Hfixed Hok Hlow0 Hknown Hknown'.
  set (s1 := exec check_peers s0) in *.
  destruct (Z_lt_le_dec (Z.of_nat (size (peers s1))) MIN_PEERS) as [Hlow|Hhigh].
  - pose proof (find_known_peers_same_registry s1 Hok) as Hreg.
    unfold exec at 1. rewrite (check_peers_run s1 known Hlow Hknown').
    change (snd (check_peers_loop (elements known) (exec find_known_peers s1)))
      with (exec (check_peers_loop (elements known)) (exec find_known_peers s1)).
    rewrite <- Hreg.
    apply (check_peers_loop_again _ (exec find_known_peers s0)); [done|].
    rewrite Hreg. subst s1. unfold exec at 1.
    by rewrite (check_peers_run s0 known Hlow0 Hknown).
  - unfold exec, FullNode.check_peers. rewrite run_bind.
    unfold FullNode.get_peers_count at 1.
    apply Z.ltb_ge in Hhigh. by rewrite Hhigh.
Qed.

(** A pass whose discovery raises leaves the registry as it is. *)
Lemma check_peers_discovery_raises s e :
  peer_lists_answered →
  eval find_known_peers s = Raise e →
  peers (exec check_peers s) = peers s.
Proof.
  intros Hok Hraise. pose proof (find_known_peers_same_registry s Hok) as Hreg.
  unfold exec, FullNode.check_peers in *. rewrite run_bind.
  unfold FullNode.get_peers_count at 1.
  destruct (_ <? _); [|done]. rewrite run_bind. unfold eval in Hraise.
  destruct (find_known_peers s) as [r s']. simpl in *. by subst r.
Qed.

(** A pass that starts with [MIN_PEERS] peers or more does nothing. *)
Lemma check_peers_enough s :
  MIN_PEERS ≤ Z.of_nat (size (peers s)) → check_peers s = (Ret tt, s).
Proof.
  intros Hmin. unfold FullNode.check_peers. rewrite run_bind.
  unfold FullNode.get_peers_count at 1. apply Z.ltb_ge in Hmin. by rewrite Hmin.
Qed.


End AdmissionFacts.

(** ** Broadcast and the mining loop *)

Section MiningFacts.

Variables (NETWORK FULL_NODE_PORT : PyVal) (MIN_PEERS MAX_PEERS : Z).
Variable host : string.
Variable evicts : nat → bool.
Variable net : list Event → Request → Reply.
Variable mine_block : list Event → option Block.
Variable add_block : list Event → Block → bool.
Variable exit_flag : list Event → bool.
Variable header_hash : BlockHeader → PyVal.
Variable to_dict : Transaction → PyVal.

Local Abbreviation add_peer := (FullNode.add_peer MAX_PEERS).
Local Abbreviation record_downtime := (FullNode.record_downtime evicts).
Local Abbreviation send := (FullNode.send net).
Local Abbreviation requests_get := (FullNode.requests_get net).
Local Abbreviation requests_post := (FullNode.requests_post net).
Local Abbreviation logger_warn := FullNode.logger_warn.
Local Abbreviation request_nodes := (FullNode.request_nodes evicts net).
Local Abbreviation try_candidate :=
  (FullNode.try_candidate NETWORK FULL_NODE_PORT MAX_PEERS host net).
Local Abbreviation check_peers :=
  (FullNode.check_peers NETWORK FULL_NODE_PORT MIN_PEERS MAX_PEERS host evicts net).
Local Abbreviation post_inbox_loop := (FullNode.post_inbox_loop FULL_NODE_PORT evicts net).
Local Abbreviation broadcast_block_inv :=
  (FullNode.broadcast_block_inv NETWORK FULL_NODE_PORT MIN_PEERS MAX_PEERS host evicts net).
Local Abbreviation broadcast_transaction_loop :=
  (FullNode.broadcast_transaction_loop FULL_NODE_PORT evicts net).
Local Abbreviation mine_iteration :=
  (FullNode.mine_iteration NETWORK FULL_NODE_PORT MIN_PEERS MAX_PEERS host evicts net
                           mine_block add_block header_hash).
Local Abbreviation mine :=
  (FullNode.mine NETWORK FULL_NODE_PORT MIN_PEERS MAX_PEERS host evicts net
                 mine_block add_block exit_flag header_hash).

Local Abbreviation mine_trace := FullNode.mine_trace.
Local Abbreviation network_only := (extends_by network_event).

Lemma send_network r : stepwise network_only (send r).
Proof.
  intros s. exists [EvRequest r]. run_prim. by destruct (net _ _).
Qed.

Lemma add_peer_network h : stepwise network_only (add_peer h).
Proof. intros s. by exists [EvAddPeer h]. Qed.

Lemma record_downtime_network h : stepwise network_only (record_downtime h).
Proof. intros s. by exists [EvRecordDowntime h]. Qed.

Lemma logger_warn_network w : stepwise network_only (logger_warn w).
Proof. intros s. by exists [EvWarn w]. Qed.

Local Hint Resolve send_network add_peer_network record_downtime_network
  logger_warn_network : stepwise.

Lemma request_nodes_network node port : stepwise network_only (request_nodes node port).
Proof.
  unfold FullNode.request_nodes, FullNode.requests_get, FullNode.json_loads.
  stepwise_split.
Qed.

Lemma try_candidate_network peer : stepwise network_only (try_candidate peer).
Proof.
  unfold FullNode.try_candidate, FullNode.requests_get, FullNode.requests_post,
    FullNode.json_loads.
  stepwise_split.
Qed.

Lemma check_peers_network : stepwise network_only check_peers.
Proof.
  apply check_peers_stepwise; [typeclasses eauto| |].
  - apply request_nodes_network.
  - apply try_candidate_network.
Qed.

Lemma get_all_peers_network : stepwise network_only FullNode.get_all_peers.
Proof. apply get_all_peers_stepwise. typeclasses eauto. Qed.

Local Hint Resolve check_peers_network get_all_peers_network : stepwise.

Lemma post_inbox_loop_network nodes data : stepwise network_only (post_inbox_loop nodes data).
Proof.
  induction nodes as [|node rest IH]; simpl.
  - stepwise_split.
  - unfold FullNode.requests_post. stepwise_split.
Qed.

Local Hint Resolve post_inbox_loop_network : stepwise.

Lemma broadcast_block_inv_network block_hashes :
  stepwise network_only (broadcast_block_inv block_hashes).
Proof. unfold FullNode.broadcast_block_inv. stepwise_split. Qed.

(** One pass through the loop body, run symbolically. *)
Lemma mine_iteration_run s :
  mine_iteration s =
    match mine_block (trace s) with
    | None => (Ret tt, mkNode (peers s) (trace s ++ [EvMineBlock None]))
    | Some b =>
        if add_block (trace s ++ [EvMineBlock (Some b)]) b then
          (broadcast_block_inv (header_hash (block_header b));;
           emit (EvInfoBlockFound b))
            (mkNode (peers s)
                    (trace s ++ [EvMineBlock (Some b); EvAddBlock b true;
                                 EvRemoveUnconfirmed (drop 1 (transactions b))]))
        else
          (Ret tt,
           mkNode (peers s) (trace s ++ [EvMineBlock (Some b); EvAddBlock b false]))
    end.
Proof.
  unfold FullNode.mine_iteration. rewrite run_bind.
  unfold FullNode.call_mine_block at 1. cbv beta zeta.
  destruct (mine_block (trace s)) as [b|]; [|done].
  rewrite run_bind. unfold FullNode.call_add_block at 1. cbv beta zeta.
  cbn [trace peers].
  destruct (add_block _ b).
  - rewrite run_bind. unfold FullNode.remove_unconfirmed_transactions, emit at 1.
    cbn [trace peers]. rewrite <- !app_assoc. done.
  - rewrite <- !app_assoc. done.
Qed.

(** What one pass adds to the trace fits in front of any mining trace;
    when the pass raised, it is a mining trace that ends there. *)
Lemma mine_iteration_trace s :
  ∃ added,
    trace (exec mine_iteration s) = trace s ++ added ∧
    match eval mine_iteration s with
    | Ret _ => ∀ l, mine_trace l → mine_trace (added ++ l)
    | Raise _ => mine_trace added
    end.
Proof.
  unfold exec, eval. rewrite mine_iteration_run.
  destruct (mine_block (trace s)) as [b|]; simpl.
  2: { exists [EvMineBlock None]. split; [done|]. intros l Hl. by constructor. }
  destruct (add_block _ b); simpl.
  2: { eexists. split; [done|]. intros l Hl. by constructor. }
  rewrite run_bind.
  destruct (broadcast_block_inv_network (header_hash (block_header b))
              (mkNode (peers s)
                 (trace s ++ [EvMineBlock (Some b); EvAddBlock b true;
                              EvRemoveUnconfirmed (drop 1 (transactions b))])))
    as (network & Htrace & Hnet).
  unfold exec in Htrace. simpl in Htrace.
  destruct (broadcast_block_inv _ _) as [[[]|e] s']; simpl in *.
  - eexists. rewrite Htrace, <- !app_assoc. split; [reflexivity|].
    intros l Hl. simpl. rewrite <- app_assoc. by constructor.
  - eexists. rewrite Htrace, <- !app_assoc. split; [reflexivity|].
    simpl. by constructor.
Qed.

Lemma mine_trace_of_run fuel s :
  ∃ added, trace (exec (mine fuel) s) = trace s ++ added ∧ mine_trace added.
Proof.
  revert s. induction fuel as [|fuel IH]; intros s; simpl.
  { exists []. rewrite app_nil_r. split; [done|constructor]. }
  unfold exec. rewrite run_bind. unfold FullNode.read_exit_flag at 1.
  destruct (exit_flag (trace s)).
  { exists []. rewrite app_nil_r. split; [done|constructor]. }
  rewrite run_bind.
  destruct (mine_iteration_trace s) as (added & Htrace & Hshape).
  unfold exec, eval in *.
  destruct (mine_iteration s) as [[[]|e] s']; simpl in *.
  - destruct (IH s') as (added' & Htrace' & Hshape').
    unfold exec in Htrace'. exists (added ++ added').
    rewrite Htrace', Htrace, app_assoc. auto.
  - by exists added.
Qed.

(** The transaction broadcast returns at its first POST that does not
    raise: the peers after it are not contacted. *)
Lemma broadcast_transaction_loop_first_answer node rest data s resp :
  let req := POST (format TRANSACTIONS_URL [VStr node; FULL_NODE_PORT; VStr EmptyString]) data in
  net (trace s) req = Answer resp →
  broadcast_transaction_loop (node :: rest) data s =
    (Ret (Some resp), mkNode (peers s) (trace s ++ [EvRequest req])).
Proof.
  intros req Hreply. simpl. run_prim. fold req. rewrite Hreply. done.
Qed.

End MiningFacts.

(** ** Shutdown *)

Module LifecycleFacts.
Import Lifecycle.

(** Reassociate appended lists to the right. *)
Ltac assoc_right := repeat (rewrite <- app_assoc; simpl).

Lemma no_shutdown_event_app l1 l2 :
  no_shutdown_event (l1 ++ l2) ↔ no_shutdown_event l1 ∧ no_shutdown_event l2.
Proof. unfold no_shutdown_event. rewrite forallb_app. apply andb_true_iff. Qed.

Lemma no_mining_event_app l1 l2 :
  no_mining_event (l1 ++ l2) ↔ no_mining_event l1 ∧ no_mining_event l2.
Proof. unfold no_mining_event. rewrite forallb_app. apply andb_true_iff. Qed.

(** The mining and exposure threads only append events that are not
    [shutdown]'s; the picture of [phase_inv] absorbs them. *)
Lemma phase_inv_app pc mt mt' evs es :
  phase_inv pc mt evs →
  no_shutdown_event es →
  (mt = MineExited → mt' = MineExited ∧ no_mining_event es) →
  phase_inv pc mt' (evs ++ es).
Proof.
  intros Hinv Hes Hmt. destruct pc; simpl in *.
  1-3: by apply no_shutdown_event_app.
  - destruct Hinv as (l1 & l2 & -> & H1 & H2).
    exists l1, (l2 ++ es). assoc_right.
    repeat split; try done. by apply no_shutdown_event_app.
  - destruct Hinv as (Hx & l1 & l2 & l3 & -> & H1 & H2 & Hin & H3 & H4).
    destruct (Hmt Hx) as [Hx' Hm]. split; [done|].
    exists l1, l2, (l3 ++ es).
    assoc_right.
    repeat split; try done.
    + by apply no_shutdown_event_app.
    + by apply no_mining_event_app.
  - destruct Hinv as (Hx & l1 & l2 & l3 & post & -> & H1 & H2 & Hin & H3 & H4 & H5 & H6).
    destruct (Hmt Hx) as [Hx' Hm]. split; [done|].
    exists l1, l2, l3, (post ++ es).
    assoc_right.
    repeat split; try done.
    + by apply no_shutdown_event_app.
    + by apply no_mining_event_app.
Qed.

Lemma inv_started : inv started_mining.
Proof. repeat split; simpl; try done. Qed.

(** A step of the mining thread or of the exposure layer. *)
Lemma inv_other_thread s mt' bt' es :
  inv s →
  no_shutdown_event es →
  (mining_thread s = MineExited → mt' = MineExited ∧ no_mining_event es) →
  (mt' = MineExited → mining_thread s = MineExited ∨ In MiningThreadExit es) →
  inv (mkSys (NODE_TYPE s) (exit_flag s) (caller s) mt' bt' (events s ++ es)).
Proof.
  intros (Hty & Hexit & Hphase) Hes Hmt Hex. repeat split; simpl; [done| |].
  - intros Hx. apply in_or_app. destruct (Hex Hx); auto.
  - by eapply phase_inv_app.
Qed.

Lemma inv_step s s' : inv s → step s s' → inv s'.
Proof.
  intros Hinv Hstep.
  destruct Hstep;
    unfold set_mining;
    try (apply inv_other_thread; [done|done| |];
         [ intros Hx; congruence
         | first [ intros Hx; discriminate
                 | intros _; right; simpl; auto
                 | intros _; left; done ] ]).
  all: destruct Hinv as (Hty & Hexit & Hphase); unfold set_caller.
  - (* shutdown is called *)
    repeat split; simpl; [done| |].
    + intros Hx. apply in_or_app. auto.
    + rewrite H in Hphase. simpl in Hphase. by apply no_shutdown_event_app.
  - repeat split; simpl; rewrite ?app_nil_r; try done.
    rewrite H in Hphase. done.
  - congruence.
  - (* the exit flag is set *)
    repeat split; simpl; [done| |].
    + intros Hx. apply in_or_app. auto.
    + rewrite H in Hphase. simpl in Hphase. by exists (events s), [].
  - (* the mining thread is joined *)
    rewrite H in Hphase. destruct Hphase as (l1 & l2 & Hev & H1 & H2).
    repeat split; simpl; [done| | done |].
    + intros Hx. apply in_or_app. auto.
    + exists l1, l2, []. rewrite Hev. assoc_right.
      repeat split; try done.
      specialize (Hexit H0). rewrite Hev in Hexit.
      apply in_app_or in Hexit. apply in_or_app.
      destruct Hexit as [|[|]]; [auto|discriminate|auto].
  - (* the exposure layer is joined, and shutdown returns *)
    rewrite H in Hphase.
    destruct Hphase as (Hx & l1 & l2 & l3 & Hev & H1 & H2 & Hin & H3 & H4).
    repeat split; simpl; [done| | done |].
    + intros _. apply in_or_app. auto.
    + exists l1, l2, l3, []. rewrite Hev. assoc_right.
      repeat split; done.
  - (* the exposure layer exits *)
    apply inv_other_thread; [done|done| |].
    + intros Hx. done.
    + intros Hx. by left.
Qed.

Lemma inv_reachable s : reachable s → inv s.
Proof.
  unfold reachable. revert s. apply rtc_ind_r; [apply inv_started|].
  intros y z _ Hstep IH. by eapply inv_step.
Qed.

(** The one place of an event that occurs once. *)
Lemma split_unique (e : Ev) l1 l2 l1' l2' :
  l1 ++ e :: l2 = l1' ++ e :: l2' → ¬ In e l1 → ¬ In e l2 → l1 = l1' ∧ l2 = l2'.
Proof.
  revert l1'. induction l1 as [|x l1 IH]; intros [|y l1'] Heq Hn Hn'; simpl in *.
  - by injection Heq as ->.
  - injection Heq as -> ->. destruct Hn'. apply in_or_app. right. by left.
  - injection Heq as -> _. tauto.
  - injection Heq as -> Heq. destruct (IH l1' Heq) as [-> ->]; tauto.
Qed.

Lemma no_shutdown_event_not_in l e :
  no_shutdown_event l → shutdown_event e = true → ¬ In e l.
Proof.
  unfold no_shutdown_event. rewrite forallb_forall. intros Hall He Hin.
  specialize (Hall e Hin). rewrite He in Hall. done.
Qed.

(** C7 Started with mining enabled, the node's [shutdown] has returned
    only if, before that, the exit flag was set, then the mining thread
    exited and was joined, and only then the exposure layer was joined;
    the mining thread has exited, and after the return it produces no
    event: no chain commit, no pool removal, no broadcast request. *)
Theorem shutdown_joins_mining_first s pre post :
  reachable s →
  events s = pre ++ ShutdownReturned :: post →
  mining_thread s = MineExited ∧
  before ExitFlagSet MiningJoined pre ∧
  before MiningThreadExit MiningJoined pre ∧
  before MiningJoined BottleJoined pre ∧
  no_mining_event post.
Proof.
  intros Hreach Hev. destruct (inv_reachable s Hreach) as (_ & _ & Hphase).
  assert (no_shutdown_event (events s) → False) as Hnot.
  { rewrite Hev. intros [_ H]%no_shutdown_event_app. discriminate. }
  destruct (caller s); simpl in Hphase; try done.
  - destruct Hphase as (l1 & l2 & Hev' & H1 & H2).
    rewrite Hev' in Hev.
    assert (In ShutdownReturned (l1 ++ ExitFlagSet :: l2)) as Hin.
    { rewrite Hev. apply in_or_app. right. by left. }
    apply in_app_or in Hin. destruct Hin as [Hin|[|Hin]]; [|done|].
    + by eapply no_shutdown_event_not_in in Hin.
    + by eapply no_shutdown_event_not_in in Hin.
  - destruct Hphase as (_ & l1 & l2 & l3 & Hev' & H1 & H2 & _ & H3 & _).
    rewrite Hev' in Hev.
    assert (In ShutdownReturned (l1 ++ ExitFlagSet :: l2 ++ MiningJoined :: l3)) as Hin.
    { rewrite Hev. apply in_or_app. right. by left. }
    apply in_app_or in Hin. destruct Hin as [Hin|[|Hin]]; [|done|].
    { by eapply no_shutdown_event_not_in in Hin. }
    apply in_app_or in Hin. destruct Hin as [Hin|[|Hin]]; [|done|].
    + by eapply no_shutdown_event_not_in in Hin.
    + by eapply no_shutdown_event_not_in in Hin.
  - destruct Hphase as (Hx & l1 & l2 & l3 & post' & Hev' & H1 & H2 & Hin & H3 & H4 & H5 & H6).
    rewrite Hev' in Hev.
    assert (pre = l1 ++ ExitFlagSet :: l2 ++ MiningJoined :: l3 ++ [BottleJoined]
            ∧ post = post') as [-> ->].
    { replace (l1 ++ ExitFlagSet :: l2 ++ MiningJoined :: l3 ++
               BottleJoined :: ShutdownReturned :: post')
        with ((l1 ++ ExitFlagSet :: l2 ++ MiningJoined :: l3 ++ [BottleJoined]) ++
              ShutdownReturned :: post') in Hev
        by (assoc_right; done).
      apply split_unique in Hev as [<- <-]; [done| |].
      - intros Hin'. apply in_app_or in Hin'. destruct Hin' as [Hin'|[|Hin']]; [|done|].
        { by eapply no_shutdown_event_not_in in Hin'. }
        apply in_app_or in Hin'. destruct Hin' as [Hin'|[|Hin']]; [|done|].
        { by eapply no_shutdown_event_not_in in Hin'. }
        apply in_app_or in Hin'. destruct Hin' as [Hin'|[|[]]]; [|done].
        by eapply no_shutdown_event_not_in in Hin'.
      - by apply no_shutdown_event_not_in. }
    split; [done|]. split; [|split; [|split; [|done]]].
    + by exists l1, l2, (l3 ++ [BottleJoined]).
    + apply in_app_or in Hin. destruct Hin as [Hin|Hin]; apply in_split in Hin.
      * destruct Hin as (a & b & ->).
        exists a, (b ++ ExitFlagSet :: l2), (l3 ++ [BottleJoined]).
        assoc_right. done.
      * destruct Hin as (a & b & ->).
        exists (l1 ++ ExitFlagSet :: a), b, (l3 ++ [BottleJoined]).
        assoc_right. done.
    + exists (l1 ++ ExitFlagSet :: l2), l3, []. assoc_right. done.
Qed.

End LifecycleFacts.

(** ** The properties on concrete nodes *)

Module Witnesses.
Import Example MoreExamples.

(** A block with transactions [coinbase; tx1; tx2] that the chain
    accepts: the two transactions after the coinbase are removed from the
    pool, then the hash goes to the inbox of the peer. *)
Example mine_block0_trace :
  trace (exec (FullNode.mine network0 port0 0 10 "me" evicts0 net_status_ok
                 mine_block0 (λ _ _, true) exit_flag0 header_hash0 3) node_a) =
    [EvMineBlock (Some block0); EvAddBlock block0 true;
     EvRemoveUnconfirmed [tx1; tx2];
     EvRequest (POST (format INBOX_URL [VStr "a"; port0])
                     (VDict [("block_hashes", VStr "blockhash")]));
     EvInfoBlockFound block0].
Proof. vm_compute. reflexivity. Qed.

(** The same block, rejected: nothing follows. *)
Example mine_block0_rejected_trace :
  trace (exec (FullNode.mine network0 port0 0 10 "me" evicts0 net_status_ok
                 mine_block0 (λ _ _, false) exit_flag0 header_hash0 3) node_a) =
    [EvMineBlock (Some block0); EvAddBlock block0 false].
Proof. vm_compute. reflexivity. Qed.

(** Witness for C2: a body whose claimed hash is not the recomputed one. *)
Lemma request_transaction_hash_mismatch_witness :
  FullNode.request_transaction evicts0 net_tx hash_recomputed "a" port0 (VStr "claimed") node_a =
    (Ret None,
     mkNode (peers node_a)
            [EvRequest (GET (format TRANSACTIONS_URL [VStr "a"; port0; VStr "claimed"]));
             EvWarn (WarnInvalidTxHash (VStr "claimed") (VStr "recomputed"))]).
Proof.
  apply (request_transaction_hash_mismatch evicts0 net_tx hash_recomputed
           "a" port0 (VStr "claimed") node_a (mkResponse 200 (Ret tx_dict0)) tx_dict0 tx0);
    reflexivity.
Defined.

(** Witness for C3: a node with one peer in a world with two more to
    discover. *)
Lemma check_peers_respects_max_peers_witness :
  Z.of_nat (size (peers (exec (gossip_check_peers 5) node_a))) ≤ 10.
Proof.
  apply (proj1 (check_peers_respects_max_peers network0 port0 5 10 "me" evicts0
                  gossip_net node_a)).
  vm_compute. discriminate.
Defined.

(** Counterexample to C4 as stated: a candidate [b] whose status
    request is answered 200 with the local descriptor and whose connect
    request is answered 200 with ["success"] true is tried and not added;
    nor is one whose status request is answered 201 with the local
    descriptor, which is not even asked to connect. *)
Lemma admission_needs_exact_status_codes :
  let pass net :=
    exec (FullNode.check_peers network0 port0 5 10 "me" evicts0 net) node_a in
  ((∀ t, net_connect_200 t (FullNode.status_request port0 "b") =
           Answer (mkResponse 200 (Ret network0))) ∧
   (∀ t, net_connect_200 t (FullNode.connect_request port0 "me" "b") =
           Answer (mkResponse 200 (Ret (VDict [("success", VBool true)])))) ∧
   trace (pass net_connect_200) =
     [EvRequest (GET (format NODES_URL [VStr "a"; port0]));
      EvRequest (FullNode.status_request port0 "a");
      EvRequest (FullNode.connect_request port0 "me" "a");
      EvRequest (FullNode.status_request port0 "b");
      EvRequest (FullNode.connect_request port0 "me" "b")] ∧
   ("b" ∉ dom (peers (pass net_connect_200)))) ∧
  ((∀ t, net_status_201 t (FullNode.status_request port0 "b") =
           Answer (mkResponse 201 (Ret network0))) ∧
   trace (pass net_status_201) =
     [EvRequest (GET (format NODES_URL [VStr "a"; port0]));
      EvRequest (FullNode.status_request port0 "a");
      EvRequest (FullNode.status_request port0 "b")] ∧
   ("b" ∉ dom (peers (pass net_status_201)))).
Proof.
  intros pass. split.
  - split; [done|]. split; [done|]. split; [vm_compute; reflexivity|].
    apply (bool_decide_unpack _). vm_compute. exact I.
  - split; [done|]. split; [vm_compute; reflexivity|].
    apply (bool_decide_unpack _). vm_compute. exact I.
Qed.

(** Witness for C4 as amended: the pass of a node that knows [a], in a
    world where [a] reports [b] and both checks succeed for everybody. *)
Lemma admission_iff_both_checks_witness :
  let discovered := exec (FullNode.find_known_peers port0 evicts0 gossip_net) node_a in
  let final := exec (gossip_check_peers 5) node_a in
  "b" ∈ dom (peers final) ↔
  "b" ∈ dom (peers discovered) ∨
  ∃ t, requested_at (trace discovered) (trace final) t (FullNode.status_request port0 "b") ∧
       FullNode.checks_pass_at network0 port0 "me" gossip_net t "b" = true.
Proof.
  destruct (admission_iff_both_checks network0 port0 5 10 "me" evicts0 gossip_net
              node_a {[ "a"; "b" ]}) as [[H _] _].
  - vm_compute. reflexivity.
  - vm_compute. reflexivity.
  - exact (H "b").
Defined.

(** Witness for C5 as amended: a 404 answer, a 200 answer that cannot
    be decoded, and a 200 answer that decodes to an object without the
    key. *)
Lemma remote_operations_on_failure_witness :
  eval (FullNode.request_blocks_inv evicts0 net_not_found "a" port0 (VInt 1) (VInt 9)) node_a
    = Ret VNone ∧
  eval (FullNode.request_blocks_inv evicts0 net_not_json "a" port0 (VInt 1) (VInt 9)) node_a
    = Raise ValueError ∧
  eval (FullNode.request_transactions_inv evicts0 net_empty_object "a" port0 (VInt 1)) node_a
    = Raise KeyError.
Proof.
  split; [|split].
  - pose proof (remote_operations_on_failure network0 port0 evicts0 net_not_found hash_recomputed
                  "a" port0 (VInt 1) (VInt 9)) as [(_ & _ & _ & _ & _ & H) _].
    apply H. reflexivity.
  - pose proof (remote_operations_on_failure network0 port0 evicts0 net_not_json hash_recomputed
                  "a" port0 (VInt 1) (VInt 9)) as [_ [(_ & _ & _ & _ & _ & H) _]].
    apply (H node_a (mkResponse 200 (Raise ValueError)) ValueError);
      [reflexivity | reflexivity | reflexivity | discriminate].
  - pose proof (remote_operations_on_failure network0 port0 evicts0 net_empty_object
                  hash_recomputed "a" port0 (VInt 1) (VInt 9))
      as [_ [_ [(_ & _ & _ & _ & H & _) _]]].
    apply (H node_a (mkResponse 200 (Ret (VDict []))) (VDict []) KeyError);
      [reflexivity | reflexivity | reflexivity | reflexivity | discriminate].
Defined.

(** Counterexample to C5 as stated: a 200 answer that is valid JSON but
    lacks the expected key makes the operation raise [KeyError], and an
    answer that cannot be decoded makes it raise the decoding error. *)
Lemma remote_operation_raises_on_malformed_body :
  eval (FullNode.request_transactions_inv evicts0 net_empty_object "a" port0 (VStr "h")) node_a
    = Raise KeyError ∧
  eval (FullNode.request_nodes evicts0 net_not_json "a" port0) node_a
    = Raise ValueError ∧
  (Raise KeyError : Result PyVal) ≠ Ret VNone.
Proof. repeat split; [vm_compute; reflexivity..|discriminate]. Qed.

(** C6: with the two peers [a] and [b], both answering, the transaction
    broadcast makes a single POST; the other peer gets nothing. *)
Theorem broadcast_transaction_reaches_one_peer :
  let s' := exec (FullNode.broadcast_transaction network0 port0 0 10 "me" evicts0
                    net_status_ok to_dict0 tx0) node_ab in
  size (dom (peers node_ab)) = 2%nat ∧
  ∃ node,
    trace s' = [EvRequest (POST (format TRANSACTIONS_URL [VStr node; port0; VStr EmptyString])
                                (VDict [("transaction", to_dict0 tx0)]))].
Proof. split; [vm_compute; reflexivity|]. eexists. vm_compute. reflexivity. Qed.

(** A run in which the mining thread polls once, [shutdown] is called
    and returns. *)
Lemma shut_down_reachable : Lifecycle.reachable shut_down.
Proof.
  unfold Lifecycle.reachable.
  eapply rtc_l; [apply Lifecycle.step_while_enter; reflexivity|].
  eapply rtc_l; [apply Lifecycle.step_mined_nothing; reflexivity|].
  eapply rtc_l; [apply Lifecycle.step_call; reflexivity|].
  eapply rtc_l; [apply Lifecycle.step_is_miner; reflexivity|].
  eapply rtc_l; [apply Lifecycle.step_set_flag; reflexivity|].
  eapply rtc_l; [apply Lifecycle.step_while_exit; reflexivity|].
  eapply rtc_l; [apply Lifecycle.step_join_mining; reflexivity|].
  eapply rtc_l; [apply Lifecycle.step_bottle_exit; reflexivity|].
  eapply rtc_l; [apply Lifecycle.step_join_bottle; reflexivity|].
  apply rtc_refl.
Defined.

(** Witness for C7: that run. *)
Lemma shutdown_joins_mining_first_witness :
  let pre := [Lifecycle.Mined None; Lifecycle.ShutdownCalled; Lifecycle.ExitFlagSet;
              Lifecycle.MiningThreadExit; Lifecycle.MiningJoined;
              Lifecycle.BottleThreadExit; Lifecycle.BottleJoined] in
  Lifecycle.mining_thread shut_down = Lifecycle.MineExited ∧
  Lifecycle.before Lifecycle.ExitFlagSet Lifecycle.MiningJoined pre ∧
  Lifecycle.before Lifecycle.MiningThreadExit Lifecycle.MiningJoined pre ∧
  Lifecycle.before Lifecycle.MiningJoined Lifecycle.BottleJoined pre ∧
  Lifecycle.no_mining_event [].
Proof.
  apply (LifecycleFacts.shutdown_joins_mining_first shut_down).
  - exact shut_down_reachable.
  - reflexivity.
Defined.


(** In [gossip_net] every request for a peer list is answered. *)
Lemma gossip_net_answers_peer_lists : FullNode.peer_lists_answered gossip_net.
Proof.
  intros t [tpl args]. simpl. intros ->.
  destruct args as [|[] args]; simpl; repeat case_match;
    eexists; (split; [reflexivity|discriminate]).
Defined.


(** Witness for C9 as amended: a descriptor that matches, and a 404
    answer. *)
Lemma ping_status_result_witness :
  eval (FullNode.ping_status network0 port0 net_status_ok "a") node_a
    = Ret (VBool (py_eq network0 network0)) ∧
  eval (FullNode.ping_status network0 port0 net_not_found "a") node_a = Ret VNone.
Proof.
  split.
  - pose proof (ping_status_result network0 port0 net_status_ok "a" node_a) as (H & _ & _).
    apply (H (mkResponse 200 (Ret network0))); reflexivity.
  - pose proof (ping_status_result network0 port0 net_not_found "a" node_a) as (_ & H & _).
    apply H. reflexivity.
Defined.

(** Counterexample to C9 as stated: asked for the status of a peer whose
    descriptor is the local one, [ping_status] returns [True], not the
    descriptor. *)
Lemma ping_status_returns_no_descriptor :
  eval (FullNode.ping_status network0 port0 net_status_ok "a") node_a = Ret (VBool true) ∧
  Ret (VBool true) ≠ Ret network0.
Proof. split; [vm_compute; reflexivity|discriminate]. Qed.

(** Witness for C10: both selectors given, the height alone, none. *)
Lemma request_block_header_selector_witness :
  let requested block_hash height u := ∃ rest,
    trace (exec (FullNode.request_block_header evicts0 net_not_found "a" port0
                   block_hash height) node_a) =
      trace node_a ++ EvRequest (GET u) :: rest
    ∧ Forall (λ e, ∀ r, e ≠ EvRequest r) rest in
  requested (VStr "h") (VInt 3)
    (format BLOCKS_URL [VStr "a"; port0; VStr "hash"; VStr "h"]) ∧
  requested VNone (VInt 3)
    (format BLOCKS_URL [VStr "a"; port0; VStr "height"; VInt 3]) ∧
  requested VNone VNone
    (format BLOCKS_URL [VStr "a"; port0; VStr "height"; VStr "latest"]).
Proof.
  intros requested. repeat split.
  - apply (request_block_header_selector evicts0 net_not_found "a" port0
             (VStr "h") (VInt 3) node_a). discriminate.
  - apply (request_block_header_selector evicts0 net_not_found "a" port0
             VNone (VInt 3) node_a); [reflexivity|discriminate].
  - apply (request_block_header_selector evicts0 net_not_found "a" port0
             VNone VNone node_a); reflexivity.
Defined.

End Witnesses.

(** * Further properties *)

(** ** Reading traces *)

Lemma requests_of_app t1 t2 : requests_of (t1 ++ t2) = requests_of t1 ++ requests_of t2.
Proof.
  induction t1 as [|e t1 IH]; [done|]. destruct e; simpl; by rewrite ?IH.
Qed.

Lemma downtimes_of_app t1 t2 : downtimes_of (t1 ++ t2) = downtimes_of t1 ++ downtimes_of t2.
Proof.
  induction t1 as [|e t1 IH]; [done|]. destruct e; simpl; by rewrite ?IH.
Qed.

(** ** The broadcasts *)

Section BroadcastFacts.

Variables (NETWORK FULL_NODE_PORT : PyVal) (MIN_PEERS MAX_PEERS : Z).
Variable host : string.
Variable evicts : nat → bool.
Variable net : list Event → Request → Reply.
Variable to_dict : Transaction → PyVal.
Variable to_json : BlockHeader → PyVal.

Local Abbreviation Peers_record_downtime := (FullNode.Peers_record_downtime evicts).
Local Abbreviation check_peers :=
  (FullNode.check_peers NETWORK FULL_NODE_PORT MIN_PEERS MAX_PEERS host evicts net).
Local Abbreviation post_inbox_loop := (FullNode.post_inbox_loop FULL_NODE_PORT evicts net).
Local Abbreviation broadcast_block_inv :=
  (FullNode.broadcast_block_inv NETWORK FULL_NODE_PORT MIN_PEERS MAX_PEERS host evicts net).
Local Abbreviation broadcast_transaction_inv :=
  (FullNode.broadcast_transaction_inv NETWORK FULL_NODE_PORT MIN_PEERS MAX_PEERS host
                                      evicts net).
Local Abbreviation broadcast_block_header :=
  (Broadcast.broadcast_block_header NETWORK FULL_NODE_PORT MIN_PEERS MAX_PEERS host
                                    evicts net to_json).
Local Abbreviation broadcast_transaction_loop :=
  (FullNode.broadcast_transaction_loop FULL_NODE_PORT evicts net).
Local Abbreviation inbox_request := (Broadcast.inbox_request FULL_NODE_PORT).
Local Abbreviation transaction_request := (Broadcast.transaction_request FULL_NODE_PORT).
Local Abbreviation unchanging := (Broadcast.unchanging net).

(** One turn of the inbox loop, whatever the peer does. *)
Lemma post_inbox_loop_cons node rest data s :
  post_inbox_loop (node :: rest) data s =
    post_inbox_loop rest data
      (match net (trace s) (inbox_request data node) with
       | Answer _ => mkNode (peers s) (trace s ++ [EvRequest (inbox_request data node)])
       | TransportFailure =>
           mkNode (Peers_record_downtime node (peers s))
                  (trace s ++ [EvRequest (inbox_request data node);
                               EvWarn (WarnRequestException node);
                               EvRecordDowntime node])
       end).
Proof.
  simpl. rewrite run_bind. unfold Broadcast.inbox_request. run_prim.
  destruct (net _ _); simpl; [|done].
  by rewrite <- !app_assoc.
Qed.

Lemma post_inbox_loop_requests nodes data s :
  eval (post_inbox_loop nodes data) s = Ret tt ∧
  requests_of (trace (exec (post_inbox_loop nodes data) s)) =
    requests_of (trace s) ++ map (inbox_request data) nodes.
Proof.
  revert s. induction nodes as [|node rest IH]; intros s.
  { simpl. by rewrite app_nil_r. }
  unfold eval, exec in *. rewrite post_inbox_loop_cons.
  match goal with |- context [post_inbox_loop rest data ?s'] =>
    destruct (IH s') as [IH1 IH2] end.
  split; [done|]. rewrite IH2.
  destruct (net _ _); simpl; rewrite requests_of_app; simpl;
    by rewrite <- app_assoc.
Qed.

(** X1 Each inventory broadcast ([broadcast_block_inv],
    [broadcast_transaction_inv], [broadcast_block_header]) whose
    discovery pass returns makes, after it, exactly one POST to the inbox
    of every peer the registry then holds, in enumeration order and with
    its own payload, and returns normally: a peer that fails, and is
    dropped for it, does not keep the peers after it from being
    served. *)
Theorem inventory_broadcast_serves_every_peer (s : Node) :
  eval check_peers s = Ret tt →
  let s1 := exec check_peers s in
  let served (m : M unit) (data : PyVal) :=
    eval m s = Ret tt ∧
    requests_of (trace (exec m s)) =
      requests_of (trace s1) ++ map (inbox_request data) (elements (dom (peers s1))) in
  (∀ block_hashes,
     served (broadcast_block_inv block_hashes) (VDict [("block_hashes", block_hashes)])) ∧
  (∀ tx_hashes,
     served (broadcast_transaction_inv tx_hashes) (VDict [("tx_hashes", tx_hashes)])) ∧
  (∀ block_header,
     served (broadcast_block_header block_header)
            (VDict [("block_header", to_json block_header)])).
Proof.
  intros Hcheck s1 served. subst served s1. unfold eval, exec in *.
  destruct (check_peers s) as [r s1] eqn:E. simpl in Hcheck. subst r.
  split; [|split]; intros x;
    unfold FullNode.broadcast_block_inv, FullNode.broadcast_transaction_inv,
      Broadcast.broadcast_block_header;
    rewrite run_bind, E; cbv beta iota zeta;
    rewrite run_bind; unfold FullNode.get_all_peers at 1; cbv beta iota zeta;
    apply post_inbox_loop_requests.
Qed.

(** X2 In a world that answers a request the same way at any time, the
    inbox loop leaves the registry as downtime recording, applied in
    order to the peers whose POST raised, makes it: a peer that answered,
    with whatever status code, is not penalised. *)
Theorem inbox_broadcast_penalises_failures_only nodes data s :
  unchanging →
  peers (exec (post_inbox_loop nodes data) s) =
    foldl (λ ps node, Peers_record_downtime node ps) (peers s)
          (List.filter (λ node, transport_failed (net [] (inbox_request data node))) nodes).
Proof.
  intros Hfixed. revert s. induction nodes as [|node rest IH]; intros s; [done|].
  unfold exec in *. rewrite post_inbox_loop_cons, IH. simpl.
  rewrite (Hfixed (trace s) []).
  by destruct (net [] _).
Qed.

(** One turn of the transaction loop. *)
Lemma broadcast_transaction_loop_cons node rest data s :
  broadcast_transaction_loop (node :: rest) data s =
    match net (trace s) (transaction_request data node) with
    | Answer resp =>
        (Ret (Some resp),
         mkNode (peers s) (trace s ++ [EvRequest (transaction_request data node)]))
    | TransportFailure =>
        broadcast_transaction_loop rest data
          (mkNode (Peers_record_downtime node (peers s))
                  (trace s ++ [EvRequest (transaction_request data node);
                               EvRecordDowntime node]))
    end.
Proof.
  simpl. rewrite run_bind. unfold Broadcast.transaction_request. run_prim.
  destruct (net _ _); simpl; [|done].
  by rewrite <- !app_assoc.
Qed.

(** X3 The transaction loop never raises.  When it returns [None], it
    has made one POST to every peer and recorded downtime against every
    one of them; when it returns a response, it has made one POST to
    each peer up to the one that answered, recorded downtime against
    those before it, and contacted none of those after it. *)
Theorem broadcast_transaction_loop_outcome nodes data s :
  let s' := exec (broadcast_transaction_loop nodes data) s in
  match eval (broadcast_transaction_loop nodes data) s with
  | Ret None =>
      requests_of (trace s') =
        requests_of (trace s) ++ map (transaction_request data) nodes ∧
      downtimes_of (trace s') = downtimes_of (trace s) ++ nodes
  | Ret (Some resp) =>
      ∃ failed node rest,
        nodes = failed ++ node :: rest ∧
        requests_of (trace s') =
          requests_of (trace s) ++ map (transaction_request data) (failed ++ [node]) ∧
        downtimes_of (trace s') = downtimes_of (trace s) ++ failed
  | Raise _ => False
  end.
Proof.
  revert s. induction nodes as [|node rest IH]; intros s; cbv zeta.
  { simpl. by rewrite !app_nil_r. }
  unfold eval, exec in *. rewrite broadcast_transaction_loop_cons.
  destruct (net (trace s) _) as [|resp]; simpl.
  - match goal with |- context [broadcast_transaction_loop rest data ?s2] =>
      specialize (IH s2); cbv zeta in IH;
      destruct (broadcast_transaction_loop rest data s2) as [[[resp|]|e] s'] end;
      simpl in *; [| |done].
    + destruct IH as (failed & node' & rest' & -> & Hreq & Hdown).
      exists (node :: failed), node', rest'. split; [done|].
      rewrite Hreq, Hdown, requests_of_app, downtimes_of_app. simpl.
      by rewrite <- !app_assoc.
    + destruct IH as [Hreq Hdown].
      rewrite Hreq, Hdown, requests_of_app, downtimes_of_app. simpl.
      by rewrite <- !app_assoc.
  - exists [], node, rest. split; [done|].
    rewrite requests_of_app, downtimes_of_app. simpl. by rewrite !app_nil_r.
Qed.

End BroadcastFacts.

(** ** The mining loop, pass by pass *)

Section MiningOrderFacts.

Variables (NETWORK FULL_NODE_PORT : PyVal) (MIN_PEERS MAX_PEERS : Z).
Variable host : string.
Variable evicts : nat → bool.
Variable net : list Event → Request → Reply.
Variable mine_block : list Event → option Block.
Variable add_block : list Event → Block → bool.
Variable exit_flag : list Event → bool.
Variable header_hash : BlockHeader → PyVal.

Local Abbreviation check_peers :=
  (FullNode.check_peers NETWORK FULL_NODE_PORT MIN_PEERS MAX_PEERS host evicts net).
Local Abbreviation post_inbox_loop := (FullNode.post_inbox_loop FULL_NODE_PORT evicts net).
Local Abbreviation broadcast_block_inv :=
  (FullNode.broadcast_block_inv NETWORK FULL_NODE_PORT MIN_PEERS MAX_PEERS host evicts net).
Local Abbreviation mine_iteration :=
  (FullNode.mine_iteration NETWORK FULL_NODE_PORT MIN_PEERS MAX_PEERS host evicts net
                           mine_block add_block header_hash).
Local Abbreviation mine :=
  (FullNode.mine NETWORK FULL_NODE_PORT MIN_PEERS MAX_PEERS host evicts net
                 mine_block add_block exit_flag header_hash).
Local Abbreviation mine_trace := FullNode.mine_trace.
Local Abbreviation inbox_request := (Broadcast.inbox_request FULL_NODE_PORT).

(** The state in which the broadcast of an accepted block starts: the
    block was mined and committed and its transactions but the first
    were removed from the pool, in this order and with nothing between. *)
Local Abbreviation committed s b :=
  (mkNode (peers s)
          (trace s ++ [EvMineBlock (Some b); EvAddBlock b true;
                       EvRemoveUnconfirmed (drop 1 (transactions b))])).

(** What the broadcast of an inventory does after its admission pass. *)
Lemma broadcast_block_inv_run block_hashes s :
  broadcast_block_inv block_hashes s =
    match check_peers s with
    | (Ret _, s1) =>
        post_inbox_loop (elements (dom (peers s1)))
          (VDict [("block_hashes", block_hashes)]) s1
    | (Raise e, s1) => (Raise e, s1)
    end.
Proof.
  unfold FullNode.broadcast_block_inv. rewrite run_bind.
  destruct (check_peers s) as [[[]|e] s1]; [|done].
  rewrite run_bind. done.
Qed.

(** The POSTs of the delivery loop, and nothing but network events. *)
Lemma post_inbox_loop_delivery nodes data s :
  ∃ delivery,
    post_inbox_loop nodes data s =
      (Ret tt, mkNode (peers (exec (post_inbox_loop nodes data) s))
                      (trace s ++ delivery)) ∧
    forallb network_event delivery = true ∧
    requests_of delivery = map (inbox_request data) nodes.
Proof.
  destruct (post_inbox_loop_network FULL_NODE_PORT evicts net nodes data s)
    as (delivery & Htrace & Hnet).
  destruct (post_inbox_loop_requests FULL_NODE_PORT evicts net nodes data s)
    as [Hret Hreq].
  exists delivery. split; [|split; [done|]].
  - unfold eval, exec in *.
    destruct (post_inbox_loop nodes data s) as [r [ps t]]. simpl in *.
    by subst r t.
  - rewrite Htrace, requests_of_app in Hreq. by apply app_inv_head in Hreq.
Qed.

(** C1 One pass of the mining loop, for a block [b] that [mine_block]
    produced.  When [add_block] accepts [b], the pass first removes from
    the pool the transactions of [b] but the one at position zero, with
    nothing between the commit and the removal, and only then runs the
    block-hash inventory broadcast: the admission pass, which adds
    network events only, and, when it returns, one POST of the hash of
    [b] to the inbox of every peer then held, followed by the log entry;
    when the admission pass raises, the loop is left there.  When
    [add_block] rejects [b], nothing follows: no removal, no request.  An
    attempt without a block adds nothing either.  The loop polls the exit
    flag before every pass, and its whole trace is a [mine_trace]. *)
Theorem mine_commit_prune_broadcast :
  (∀ s b,
     mine_block (trace s) = Some b →
     add_block (trace s ++ [EvMineBlock (Some b)]) b = true →
     let checked := exec check_peers (committed s b) in
     let data := VDict [("block_hashes", header_hash (block_header b))] in
     (∃ discovery,
        trace checked = trace (committed s b) ++ discovery ∧
        forallb network_event discovery = true) ∧
     (eval check_peers (committed s b) = Ret tt →
      ∃ delivery,
        eval mine_iteration s = Ret tt ∧
        trace (exec mine_iteration s) =
          trace checked ++ delivery ++ [EvInfoBlockFound b] ∧
        forallb network_event delivery = true ∧
        requests_of delivery =
          map (inbox_request data) (elements (dom (peers checked)))) ∧
     (∀ e, eval check_peers (committed s b) = Raise e →
           mine_iteration s = (Raise e, checked))) ∧
  (∀ s b,
     mine_block (trace s) = Some b →
     add_block (trace s ++ [EvMineBlock (Some b)]) b = false →
     mine_iteration s =
       (Ret tt, mkNode (peers s) (trace s ++ [EvMineBlock (Some b); EvAddBlock b false]))) ∧
  (∀ s,
     mine_block (trace s) = None →
     mine_iteration s = (Ret tt, mkNode (peers s) (trace s ++ [EvMineBlock None]))) ∧
  (∀ fuel s,
     mine (S fuel) s =
       if exit_flag (trace s) then (Ret true, s) else (mine_iteration;; mine fuel) s) ∧
  (∀ fuel s,
     ∃ added, trace (exec (mine fuel) s) = trace s ++ added ∧ mine_trace added).
Proof.
  split; [|split; [|split; [|split]]].
  - intros s b Hb Hacc checked data.
    pose proof (mine_iteration_run NETWORK FULL_NODE_PORT MIN_PEERS MAX_PEERS host
                  evicts net mine_block add_block header_hash s) as Hrun.
    rewrite Hb, Hacc, run_bind, broadcast_block_inv_run in Hrun.
    split; [|split].
    + apply (check_peers_network NETWORK FULL_NODE_PORT MIN_PEERS MAX_PEERS host
               evicts net).
    + intros Hret. subst checked. unfold eval, exec in *.
      destruct (check_peers (committed s b)) as [r s1]. simpl in *. subst r.
      destruct (post_inbox_loop_delivery (elements (dom (peers s1))) data s1)
        as (delivery & Hloop & Hnet & Hreq).
      fold data in Hrun. rewrite Hloop in Hrun.
      exists delivery. rewrite Hrun. simpl. by rewrite <- app_assoc.
    + intros e Hraise. subst checked. unfold eval, exec in *.
      destruct (check_peers (committed s b)) as [r s1]. simpl in *. by subst r.
  - intros s b Hb Hrej.
    rewrite (mine_iteration_run NETWORK FULL_NODE_PORT MIN_PEERS MAX_PEERS host
               evicts net mine_block add_block header_hash s).
    by rewrite Hb, Hrej.
  - intros s Hnone.
    rewrite (mine_iteration_run NETWORK FULL_NODE_PORT MIN_PEERS MAX_PEERS host
               evicts net mine_block add_block header_hash s).
    by rewrite Hnone.
  - intros fuel s. simpl. rewrite run_bind. unfold FullNode.read_exit_flag at 1.
    by destruct (exit_flag (trace s)).
  - apply mine_trace_of_run.
Qed.

End MiningOrderFacts.

(** ** Discovery and the admission loop, event by event *)

Global Instance loses_peers_only_preorder : PreOrder loses_peers_only.
Proof. split; unfold loses_peers_only; [intros s | intros s1 s2 s3]; set_solver. Qed.

Section DiscoveryFacts.

Variables (NETWORK FULL_NODE_PORT : PyVal) (MIN_PEERS MAX_PEERS : Z).
Variable host : string.
Variable evicts : nat → bool.
Variable net : list Event → Request → Reply.
Variable to_dict : Transaction → PyVal.
Variable to_json : BlockHeader → PyVal.

Local Abbreviation request_nodes := (FullNode.request_nodes evicts net).
Local Abbreviation find_known_peers_loop :=
  (FullNode.find_known_peers_loop FULL_NODE_PORT evicts net).
Local Abbreviation find_known_peers := (FullNode.find_known_peers FULL_NODE_PORT evicts net).
Local Abbreviation try_candidate :=
  (FullNode.try_candidate NETWORK FULL_NODE_PORT MAX_PEERS host net).
Local Abbreviation check_peers_loop :=
  (FullNode.check_peers_loop NETWORK FULL_NODE_PORT MAX_PEERS host net).
Local Abbreviation check_peers :=
  (FullNode.check_peers NETWORK FULL_NODE_PORT MIN_PEERS MAX_PEERS host evicts net).
Local Abbreviation broadcast_block_inv :=
  (FullNode.broadcast_block_inv NETWORK FULL_NODE_PORT MIN_PEERS MAX_PEERS host evicts net).
Local Abbreviation broadcast_transaction_inv :=
  (FullNode.broadcast_transaction_inv NETWORK FULL_NODE_PORT MIN_PEERS MAX_PEERS host
                                      evicts net).
Local Abbreviation broadcast_block_header :=
  (Broadcast.broadcast_block_header NETWORK FULL_NODE_PORT MIN_PEERS MAX_PEERS host
                                    evicts net to_json).
Local Abbreviation broadcast_transaction :=
  (FullNode.broadcast_transaction NETWORK FULL_NODE_PORT MIN_PEERS MAX_PEERS host
                                  evicts net to_dict).
Local Abbreviation nodes_request := (Broadcast.nodes_request FULL_NODE_PORT).
Local Abbreviation status_request := (FullNode.status_request FULL_NODE_PORT).
Local Abbreviation connect_request := (FullNode.connect_request FULL_NODE_PORT host).
Local Abbreviation handshakes := (Broadcast.handshakes NETWORK FULL_NODE_PORT host net).

Lemma request_nodes_requests node port s :
  requests_of (trace (exec (request_nodes node port) s)) =
    requests_of (trace s) ++ [GET (format NODES_URL [VStr node; port])].
Proof.
  unfold FullNode.request_nodes. run_prim.
  destruct (net _ _) as [|resp]; simpl.
  { rewrite !requests_of_app. simpl. by rewrite app_nil_r. }
  destruct (status_code resp =? 200); simpl; [|by rewrite requests_of_app].
  destruct (decoded resp) as [v|[]]; simpl; rewrite !requests_of_app; simpl;
    by rewrite ?app_nil_r.
Qed.

Lemma find_known_peers_loop_result peers known s known' :
  eval (find_known_peers_loop peers known) s = Ret known' →
  known ⊆ known' ∧
  requests_of (trace (exec (find_known_peers_loop peers known) s)) =
    requests_of (trace s) ++ map nodes_request peers.
Proof.
  revert known s. induction peers as [|peer rest IH]; intros known s; simpl.
  { unfold eval, exec. simpl. intros [= ->]. by rewrite app_nil_r. }
  unfold eval, exec. rewrite run_bind.
  pose proof (request_nodes_requests peer FULL_NODE_PORT s) as Hreq.
  unfold exec in Hreq.
  destruct (request_nodes peer FULL_NODE_PORT s) as [[nodes|e] s1]; simpl in *;
    [|discriminate].
  rewrite run_bind.
  destruct (is_None nodes); simpl.
  - intros H. destruct (IH known s1 H) as [Hsub Htr].
    split; [done|]. unfold exec in Htr. rewrite Htr, Hreq, <- app_assoc. done.
  - rewrite !run_bind. unfold lift at 1 2.
    destruct (py_getitem nodes "full_nodes") as [full|e]; simpl; [|discriminate].
    rewrite !run_bind. unfold lift at 1.
    destruct (iter_addresses full) as [added|e]; simpl; [|discriminate].
    intros H. destruct (IH _ s1 H) as [Hsub Htr].
    split; [etrans; [apply union_subseteq_l|exact Hsub]|]. unfold exec in Htr. rewrite Htr, Hreq, <- app_assoc. done.
Qed.

(** X4 [find_known_peers] adds no peer to the registry.  When it
    returns, the candidates it returns include every peer the registry
    held at the start, also those dropped on the way, and it has asked
    each of them for its peer list exactly once, in enumeration order. *)
Theorem find_known_peers_asks_every_peer (s : Node) :
  dom (peers (exec find_known_peers s)) ⊆ dom (peers s) ∧
  (∀ known,
     eval find_known_peers s = Ret known →
     dom (peers s) ⊆ known ∧
     requests_of (trace (exec find_known_peers s)) =
       requests_of (trace s) ++ map nodes_request (elements (dom (peers s)))).
Proof.
  split.
  - apply (find_known_peers_stepwise FULL_NODE_PORT evicts net loses_peers_only).
    intros node port s'. apply request_nodes_dom.
  - intros known. unfold FullNode.find_known_peers, eval, exec.
    rewrite run_bind. unfold FullNode.get_all_peers at 1. cbv beta iota zeta.
    apply find_known_peers_loop_result.
Qed.

Lemma check_peers_empty s : peers s = ∅ → check_peers s = (Ret tt, s).
Proof.
  intros Hempty. unfold FullNode.check_peers, FullNode.find_known_peers. run_prim.
  destruct (_ <? _); [|done]. cbv beta. rewrite Hempty.
  rewrite dom_empty_L, elements_empty. simpl. by rewrite elements_empty.
Qed.

(** X5 A node whose registry is empty cannot find peers: its admission
    pass makes no request and changes nothing, whatever [MIN_PEERS] is,
    and so its broadcasts reach nobody and the transaction broadcast
    returns [None]. *)
Theorem empty_registry_contacts_nobody (s : Node) :
  peers s = ∅ →
  check_peers s = (Ret tt, s) ∧
  (∀ block_hashes, broadcast_block_inv block_hashes s = (Ret tt, s)) ∧
  (∀ tx_hashes, broadcast_transaction_inv tx_hashes s = (Ret tt, s)) ∧
  (∀ block_header, broadcast_block_header block_header s = (Ret tt, s)) ∧
  (∀ transaction, broadcast_transaction transaction s = (Ret None, s)).
Proof.
  intros Hempty. pose proof (check_peers_empty s Hempty) as Hcheck.
  split; [done|].
  split; [|split; [|split]]; intros x;
    unfold FullNode.broadcast_block_inv, FullNode.broadcast_transaction_inv,
      Broadcast.broadcast_block_header, FullNode.broadcast_transaction;
    rewrite run_bind, Hcheck; cbv beta iota zeta;
    rewrite run_bind; unfold FullNode.get_all_peers at 1; cbv beta iota zeta;
    rewrite Hempty, dom_empty_L, elements_empty; done.
Qed.

(** What the admission of one candidate adds to the trace. *)
Lemma try_candidate_handshake peer s :
  peer ≠ host →
  ∃ block,
    trace (exec (try_candidate peer) s) = trace s ++ block ∧
    ∀ l, handshakes (trace s ++ block) l → handshakes (trace s) (block ++ l).
Proof.
  intros Hself.
  pose proof (Broadcast.handshakes_incompatible NETWORK FULL_NODE_PORT host net
                (trace s) peer) as Hinc.
  pose proof (Broadcast.handshakes_refused NETWORK FULL_NODE_PORT host net
                (trace s) peer) as Href.
  pose proof (Broadcast.handshakes_joined NETWORK FULL_NODE_PORT host net
                (trace s) peer) as Hjoin.
  unfold FullNode.checks_pass_at, FullNode.status_check, FullNode.connect_check,
    FullNode.status_request, FullNode.connect_request, FullNode.try_candidate in *.
  run_prim.
  destruct (net (trace s) _) as [|resp]; simpl in *;
    [eexists; split; [done|]; intros l; simpl; by apply Hinc|].
  destruct (status_code resp =? 200); simpl in *;
    [|eexists; split; [done|]; intros l; simpl; by apply Hinc].
  destruct (decoded resp) as [v|e]; simpl in *;
    [|destruct e; simpl; eexists; (split; [done|]); intros l; simpl; by apply Hinc].
  destruct (py_eq v NETWORK); simpl in *;
    [|eexists; split; [done|]; intros l; simpl; by apply Hinc].
  destruct (net (trace s ++ _) _) as [|resp']; simpl in *;
    [eexists; rewrite <- app_assoc; split; [done|]; intros l; simpl; by apply Href|].
  destruct (status_code resp' =? 202); simpl in *;
    [|eexists; rewrite <- app_assoc; split; [done|]; intros l; simpl; by apply Href].
  destruct (decoded resp') as [v'|e]; simpl in *;
    [|destruct e; simpl; eexists; rewrite <- app_assoc; (split; [done|]);
      intros l; simpl; by apply Href].
  destruct (py_get v' "success") as [w|e]; simpl in *;
    [|destruct e; simpl; eexists; rewrite <- app_assoc; (split; [done|]);
      intros l; simpl; by apply Href].
  destruct (is_True w); simpl in *.
  - eexists. rewrite <- !app_assoc. split; [done|]. intros l. simpl. by apply Hjoin.
  - eexists. rewrite <- app_assoc. split; [done|]. intros l. simpl. by apply Href.
Qed.

Lemma check_peers_loop_handshakes known s :
  ∃ added,
    trace (exec (check_peers_loop known) s) = trace s ++ added ∧
    handshakes (trace s) added.
Proof.
  revert s. induction known as [|peer rest IH]; intros s; simpl.
  { exists []. rewrite app_nil_r. split; [done|constructor]. }
  unfold exec. rewrite run_bind. unfold FullNode.get_peers_count at 1.
  cbv beta iota zeta.
  destruct (MAX_PEERS <=? _).
  { exists []. rewrite app_nil_r. split; [done|constructor]. }
  destruct (String.eqb_spec peer host) as [|Hself]; [apply IH|].
  rewrite run_bind.
  destruct (try_candidate_handshake peer s Hself) as (block & Htrace & Hshape).
  unfold exec in Htrace.
  destruct (try_candidate peer s) as [[[]|e] s1]; simpl in *.
  - destruct (IH s1) as (added & Htrace' & Hshape'). unfold exec in Htrace'.
    exists (block ++ added). rewrite Htrace', Htrace, app_assoc.
    split; [done|]. apply Hshape. by rewrite <- Htrace.
  - exists block. split; [done|].
    rewrite <- (app_nil_r block). apply Hshape. constructor.
Qed.

Lemma request_nodes_discovery node port :
  stepwise (extends_by discovery_event) (request_nodes node port).
Proof.
  intros s. unfold FullNode.request_nodes, extends_by. run_prim.
  destruct (net _ _) as [|resp]; simpl.
  { eexists. rewrite <- app_assoc. split; done. }
  destruct (status_code resp =? 200); simpl; [|by eexists].
  destruct (decoded resp) as [v|[]]; simpl; try by eexists.
  eexists. rewrite <- app_assoc. split; done.
Qed.

(** X6 What [check_peers] adds to the trace is a run of peer-list
    requests, with the downtime they lead to, followed by the handshakes
    of the admission loop: per candidate, never the node itself, a
    status request; a connect request only when the status check
    succeeded; the insertion only when the connect check succeeded too.
    The loop records no downtime and logs nothing, also for a candidate
    that cannot be reached. *)
Theorem check_peers_trace_shape (s : Node) :
  ∃ discovery added,
    trace (exec check_peers s) = trace s ++ discovery ++ added ∧
    forallb discovery_event discovery = true ∧
    handshakes (trace s ++ discovery) added.
Proof.
  unfold FullNode.check_peers, exec. rewrite run_bind.
  unfold FullNode.get_peers_count at 1. cbv beta iota zeta.
  destruct (_ <? _).
  2: { exists [], []. rewrite !app_nil_r. repeat split. constructor. }
  rewrite run_bind.
  destruct (find_known_peers_stepwise FULL_NODE_PORT evicts net
              (extends_by discovery_event) request_nodes_discovery s)
    as (discovery & Htrace & Hdisc).
  unfold exec in Htrace.
  destruct (find_known_peers s) as [[known|e] s1]; simpl in *.
  - destruct (check_peers_loop_handshakes (elements known) s1)
      as (added & Htrace' & Hshape).
    unfold exec in Htrace'. exists discovery, added.
    rewrite Htrace', Htrace, <- app_assoc. repeat split; [done|].
    by rewrite <- Htrace.
  - exists discovery, []. rewrite app_nil_r. repeat split; [done..|constructor].
Qed.

End DiscoveryFacts.

(** ** Exceptions that reach the caller *)

Lemma nre_ret {A} (a : A) : no_request_exception (mret a : M A).
Proof. intros s. done. Qed.

Lemma nre_lift {A} (r : Result A) :
  r ≠ Raise RequestException → no_request_exception (lift r).
Proof. intros Hr s. done. Qed.

Lemma nre_bind {A B} (m : M A) (k : A → M B) :
  no_request_exception m → (∀ a, no_request_exception (k a)) →
  no_request_exception (m ≫= k).
Proof.
  intros Hm Hk s. unfold eval. rewrite run_bind.
  specialize (Hm s). unfold eval in Hm.
  destruct (m s) as [[a|e] s']; simpl in *; [apply Hk|].
  intros [= ->]. by destruct Hm.
Qed.

(** A handler that does not raise one stops every [RequestException]
    of the block it guards. *)
Lemma nre_try {A} (body handler : M A) :
  no_request_exception handler → no_request_exception (try_except body handler).
Proof.
  intros Hh s. unfold eval, try_except.
  destruct (body s) as [[a|e] s']; simpl; [done|].
  destruct e; simpl; try done. apply Hh.
Qed.

Lemma py_getitem_no_request_exception d k : py_getitem d k ≠ Raise RequestException.
Proof. destruct d; simpl; try done. by destruct (dict_lookup k d). Qed.

Lemma iter_addresses_no_request_exception v : iter_addresses v ≠ Raise RequestException.
Proof.
  destruct v as [| | | |l|]; simpl; try done.
  induction l as [|x l IH]; [done|].
  destruct x; try done.
  destruct ((fix items (l : list PyVal) : Result (list string) := _) l) as [r|e];
    [done|]. intros [= ->]. done.
Qed.

Create HintDb nre.

#[export] Hint Resolve py_getitem_no_request_exception
  iter_addresses_no_request_exception : nre.

(** Take a program apart down to its handlers and primitive actions. *)
Ltac nre_split :=
  repeat first
    [ solve [auto with nre]
    | apply nre_ret
    | apply nre_try
    | apply nre_lift
    | apply nre_bind; [|intros ?]
    | match goal with
      | |- no_request_exception (if ?b then _ else _) => destruct b
      | |- no_request_exception (match ?x with _ => _ end) => destruct x
      end ].

Section ExceptionFacts.

Variables (NETWORK FULL_NODE_PORT : PyVal) (MIN_PEERS MAX_PEERS : Z).
Variable host : string.
Variable evicts : nat → bool.
Variable net : list Event → Request → Reply.
Variable mine_block : list Event → option Block.
Variable add_block : list Event → Block → bool.
Variable exit_flag : list Event → bool.
Variable Transaction_tx_hash : Transaction → PyVal.
Variable header_hash : BlockHeader → PyVal.
Variable to_dict : Transaction → PyVal.
Variable to_json : BlockHeader → PyVal.

Local Abbreviation Peers_record_downtime := (FullNode.Peers_record_downtime evicts).
Local Abbreviation request_nodes := (FullNode.request_nodes evicts net).
Local Abbreviation ping_status := (FullNode.ping_status NETWORK FULL_NODE_PORT net).
Local Abbreviation block_header_url := FullNode.block_header_url.
Local Abbreviation request_block_header := (FullNode.request_block_header evicts net).
Local Abbreviation request_transaction :=
  (FullNode.request_transaction evicts net Transaction_tx_hash).
Local Abbreviation request_transactions_inv := (FullNode.request_transactions_inv evicts net).
Local Abbreviation request_blocks_inv := (FullNode.request_blocks_inv evicts net).
Local Abbreviation find_known_peers_loop :=
  (FullNode.find_known_peers_loop FULL_NODE_PORT evicts net).
Local Abbreviation find_known_peers := (FullNode.find_known_peers FULL_NODE_PORT evicts net).
Local Abbreviation try_candidate :=
  (FullNode.try_candidate NETWORK FULL_NODE_PORT MAX_PEERS host net).
Local Abbreviation check_peers_loop :=
  (FullNode.check_peers_loop NETWORK FULL_NODE_PORT MAX_PEERS host net).
Local Abbreviation check_peers :=
  (FullNode.check_peers NETWORK FULL_NODE_PORT MIN_PEERS MAX_PEERS host evicts net).
Local Abbreviation post_inbox_loop := (FullNode.post_inbox_loop FULL_NODE_PORT evicts net).
Local Abbreviation broadcast_block_inv :=
  (FullNode.broadcast_block_inv NETWORK FULL_NODE_PORT MIN_PEERS MAX_PEERS host evicts net).
Local Abbreviation broadcast_transaction_inv :=
  (FullNode.broadcast_transaction_inv NETWORK FULL_NODE_PORT MIN_PEERS MAX_PEERS host
                                      evicts net).
Local Abbreviation broadcast_block_header :=
  (Broadcast.broadcast_block_header NETWORK FULL_NODE_PORT MIN_PEERS MAX_PEERS host
                                    evicts net to_json).
Local Abbreviation broadcast_transaction_loop :=
  (FullNode.broadcast_transaction_loop FULL_NODE_PORT evicts net).
Local Abbreviation broadcast_transaction :=
  (FullNode.broadcast_transaction NETWORK FULL_NODE_PORT MIN_PEERS MAX_PEERS host
                                  evicts net to_dict).
Local Abbreviation mine_iteration :=
  (FullNode.mine_iteration NETWORK FULL_NODE_PORT MIN_PEERS MAX_PEERS host evicts net
                           mine_block add_block header_hash).
Local Abbreviation mine :=
  (FullNode.mine NETWORK FULL_NODE_PORT MIN_PEERS MAX_PEERS host evicts net
                 mine_block add_block exit_flag header_hash).

Lemma returns_no_request_exception {A} (m : M A) :
  (∀ s, ∃ a, eval m s = Ret a) → no_request_exception m.
Proof. intros H s. destruct (H s) as [a ->]. done. Qed.

Lemma record_downtime_nre h : no_request_exception (FullNode.record_downtime evicts h).
Proof. apply returns_no_request_exception. by eexists. Qed.

Lemma add_peer_nre h : no_request_exception (FullNode.add_peer MAX_PEERS h).
Proof. apply returns_no_request_exception. by eexists. Qed.

Lemma logger_warn_nre w : no_request_exception (FullNode.logger_warn w).
Proof. apply returns_no_request_exception. by eexists. Qed.

Lemma emit_nre e : no_request_exception (emit e).
Proof. apply returns_no_request_exception. by eexists. Qed.

Lemma get_peers_count_nre : no_request_exception FullNode.get_peers_count.
Proof. apply returns_no_request_exception. by eexists. Qed.

Lemma get_all_peers_nre : no_request_exception FullNode.get_all_peers.
Proof. apply returns_no_request_exception. by eexists. Qed.

Lemma call_mine_block_nre : no_request_exception (FullNode.call_mine_block mine_block).
Proof. apply returns_no_request_exception. by eexists. Qed.

Lemma call_add_block_nre b : no_request_exception (FullNode.call_add_block add_block b).
Proof. apply returns_no_request_exception. by eexists. Qed.

Lemma read_exit_flag_nre : no_request_exception (FullNode.read_exit_flag exit_flag).
Proof. apply returns_no_request_exception. by eexists. Qed.

Local Hint Resolve record_downtime_nre add_peer_nre logger_warn_nre emit_nre
  get_peers_count_nre get_all_peers_nre call_mine_block_nre call_add_block_nre
  read_exit_flag_nre : nre.

Lemma request_nodes_nre node port : no_request_exception (request_nodes node port).
Proof. unfold FullNode.request_nodes. nre_split. Qed.

Local Hint Resolve request_nodes_nre : nre.

Lemma find_known_peers_loop_nre peers known :
  no_request_exception (find_known_peers_loop peers known).
Proof.
  revert known. induction peers as [|peer rest IH]; intros known; simpl; nre_split.
Qed.

Local Hint Resolve find_known_peers_loop_nre : nre.

Lemma try_candidate_nre peer : no_request_exception (try_candidate peer).
Proof. unfold FullNode.try_candidate. nre_split. Qed.

Local Hint Resolve try_candidate_nre : nre.

Lemma check_peers_loop_nre known : no_request_exception (check_peers_loop known).
Proof. induction known as [|peer rest IH]; simpl; nre_split. Qed.

Local Hint Resolve check_peers_loop_nre : nre.

Lemma check_peers_nre : no_request_exception check_peers.
Proof. unfold FullNode.check_peers, FullNode.find_known_peers. nre_split. Qed.

Local Hint Resolve check_peers_nre : nre.

Lemma post_inbox_loop_nre nodes data : no_request_exception (post_inbox_loop nodes data).
Proof. induction nodes as [|node rest IH]; simpl; nre_split. Qed.

Lemma broadcast_transaction_loop_nre nodes data :
  no_request_exception (broadcast_transaction_loop nodes data).
Proof. induction nodes as [|node rest IH]; simpl; nre_split. Qed.

Local Hint Resolve post_inbox_loop_nre broadcast_transaction_loop_nre : nre.

Lemma broadcast_block_inv_nre x : no_request_exception (broadcast_block_inv x).
Proof. unfold FullNode.broadcast_block_inv. nre_split. Qed.

Local Hint Resolve broadcast_block_inv_nre : nre.

Lemma mine_nre fuel : no_request_exception (mine fuel).
Proof.
  induction fuel as [|fuel IH]; simpl; unfold FullNode.mine_iteration,
    FullNode.remove_unconfirmed_transactions; nre_split.
Qed.

(** X7 No operation of the node lets a [RequestException] reach its
    caller: the six remote operations, discovery and admission, the four
    broadcasts and the mining loop all handle it where it is raised.  A
    peer that cannot be reached never stops a broadcast or the mining
    thread. *)
Theorem request_exceptions_are_contained :
  (∀ node port, no_request_exception (request_nodes node port)) ∧
  (∀ h, no_request_exception (ping_status h)) ∧
  (∀ node port block_hash height,
     no_request_exception (request_block_header node port block_hash height)) ∧
  (∀ node port tx_hash, no_request_exception (request_transaction node port tx_hash)) ∧
  (∀ node port block_hash,
     no_request_exception (request_transactions_inv node port block_hash)) ∧
  (∀ node port start_height stop_height,
     no_request_exception (request_blocks_inv node port start_height stop_height)) ∧
  no_request_exception find_known_peers ∧
  no_request_exception check_peers ∧
  (∀ block_hashes, no_request_exception (broadcast_block_inv block_hashes)) ∧
  (∀ tx_hashes, no_request_exception (broadcast_transaction_inv tx_hashes)) ∧
  (∀ block_header, no_request_exception (broadcast_block_header block_header)) ∧
  (∀ transaction, no_request_exception (broadcast_transaction transaction)) ∧
  (∀ fuel, no_request_exception (mine fuel)).
Proof.
  repeat split; intros;
    try apply mine_nre;
    unfold FullNode.ping_status, FullNode.request_block_header,
      FullNode.request_transaction, FullNode.request_transactions_inv,
      FullNode.request_blocks_inv, FullNode.find_known_peers,
      FullNode.broadcast_transaction_inv, Broadcast.broadcast_block_header,
      FullNode.broadcast_transaction;
    nre_split.
Qed.

End ExceptionFacts.

(** ** What the remote operations leave behind *)

Section RemoteOutcomeFacts.

Variable evicts : nat → bool.
Variable net : list Event → Request → Reply.
Variable Transaction_tx_hash : Transaction → PyVal.

Local Abbreviation Peers_record_downtime := (FullNode.Peers_record_downtime evicts).
Local Abbreviation request_nodes := (FullNode.request_nodes evicts net).
Local Abbreviation block_header_url := FullNode.block_header_url.
Local Abbreviation request_block_header := (FullNode.request_block_header evicts net).
Local Abbreviation request_transaction :=
  (FullNode.request_transaction evicts net Transaction_tx_hash).
Local Abbreviation request_transactions_inv := (FullNode.request_transactions_inv evicts net).
Local Abbreviation request_blocks_inv := (FullNode.request_blocks_inv evicts net).

(** X8 When its request fails in transport, each of [request_nodes],
    [request_block_header], [request_transaction],
    [request_transactions_inv] and [request_blocks_inv] records downtime
    exactly once, against the peer it asked (the four of [FullNode] log a
    warning first); when the request is answered with a status other
    than 200, they leave the registry as it was and the trace holds the
    request only. *)
Theorem remote_operations_downtime (node : string) (port a b : PyVal) (s : Node) :
  let penalised (A : Type) (warned : bool) (m : M A) (req : Request) :=
    net (trace s) req = TransportFailure →
    exec m s =
      mkNode (Peers_record_downtime node (peers s))
             (trace s ++ EvRequest req ::
                (if warned then [EvWarn (WarnRequestException node)] else []) ++
                [EvRecordDowntime node]) in
  let spared (A : Type) (m : M A) (req : Request) :=
    ∀ resp, net (trace s) req = Answer resp → status_code resp ≠ 200 →
            exec m s = mkNode (peers s) (trace s ++ [EvRequest req]) in
  let nodes_req := GET (format NODES_URL [VStr node; port]) in
  let header_req := GET (block_header_url node port a b) in
  let tx_req := GET (format TRANSACTIONS_URL [VStr node; port; a]) in
  let tx_inv_req := GET (format TRANSACTIONS_INV_URL [VStr node; port; a]) in
  let blocks_inv_req := GET (format BLOCKS_INV_URL [VStr node; port; a; b]) in
  (penalised _ false (request_nodes node port) nodes_req ∧
   penalised _ true (request_block_header node port a b) header_req ∧
   penalised _ true (request_transaction node port a) tx_req ∧
   penalised _ true (request_transactions_inv node port a) tx_inv_req ∧
   penalised _ true (request_blocks_inv node port a b) blocks_inv_req) ∧
  (spared _ (request_nodes node port) nodes_req ∧
   spared _ (request_block_header node port a b) header_req ∧
   spared _ (request_transaction node port a) tx_req ∧
   spared _ (request_transactions_inv node port a) tx_inv_req ∧
   spared _ (request_blocks_inv node port a b) blocks_inv_req).
Proof.
  cbv zeta. split.
  - repeat split; run_request; intros ->; simpl; by rewrite <- ?app_assoc.
  - repeat split; intros resp; run_request; intros -> Hcode; simpl;
      apply Z.eqb_neq in Hcode; by rewrite Hcode.
Qed.

(** X9 On a 200 answer that carries all the fields of a transaction,
    [request_transaction] returns the transaction built from them when
    the recomputed hash equals the claimed one, and [None] otherwise; in
    both cases the registry is left as it was. *)
Theorem request_transaction_returns_verified node port tx_hash s resp tx_dict tx :
  let req := GET (format TRANSACTIONS_URL [VStr node; port; tx_hash]) in
  net (trace s) req = Answer resp →
  status_code resp = 200 →
  decoded resp = Ret tx_dict →
  Transaction_of tx_dict = Ret tx →
  eval (request_transaction node port tx_hash) s =
    Ret (if py_eq (Transaction_tx_hash tx) (claimed_tx_hash tx) then Some tx else None) ∧
  peers (exec (request_transaction node port tx_hash) s) = peers s.
Proof.
  intros req Hreply Hcode Hdec Htx.
  assert (py_getitem tx_dict "tx_hash" = Ret (claimed_tx_hash tx)) as Hclaimed.
  { unfold Transaction_of in Htx.
    repeat match type of Htx with
           | (?r ≫= _) = _ => destruct r eqn:?; simpl in Htx; [|discriminate]
           end.
    injection Htx as <-. done. }
  subst req. run_request. rewrite Hreply; simpl.
  apply Z.eqb_eq in Hcode. rewrite Hcode, Hdec; simpl.
  rewrite Htx; simpl. rewrite Hclaimed; simpl.
  by destruct (py_eq _ _).
Qed.

(** The header that [BlockHeader_of] builds from a JSON object, field
    by field. *)
Lemma BlockHeader_of_dict d :
  BlockHeader_of (VDict d) =
    match dict_lookup "previous_hash" d, dict_lookup "merkle_root" d,
          dict_lookup "timestamp" d, dict_lookup "nonce" d, dict_lookup "version" d with
    | Some p, Some m, Some t, Some n, Some v => Ret (mkBlockHeader p m t n v)
    | _, _, _, _, _ => Raise KeyError
    end.
Proof.
  unfold BlockHeader_of. simpl.
  destruct (dict_lookup "previous_hash" d); simpl; [|done].
  destruct (dict_lookup "merkle_root" d); simpl; [|done].
  destruct (dict_lookup "timestamp" d); simpl; [|done].
  destruct (dict_lookup "nonce" d); simpl; [|done].
  destruct (dict_lookup "version" d); simpl; done.
Qed.

(** X10 On a 200 answer whose body decodes, [request_block_header]
    returns the header made of the five fields it looks up, whatever
    else the object holds; it raises [KeyError] to its caller when one of
    the five is missing and [TypeError] when the body is not an object;
    in each case the registry is left as it was. *)
Theorem request_block_header_fields node port block_hash height s resp body :
  let req := GET (block_header_url node port block_hash height) in
  let result := eval (request_block_header node port block_hash height) s in
  net (trace s) req = Answer resp →
  status_code resp = 200 →
  decoded resp = Ret body →
  (∀ d p m t n v,
     body = VDict d →
     dict_lookup "previous_hash" d = Some p → dict_lookup "merkle_root" d = Some m →
     dict_lookup "timestamp" d = Some t → dict_lookup "nonce" d = Some n →
     dict_lookup "version" d = Some v →
     result = Ret (Some (mkBlockHeader p m t n v))) ∧
  (∀ d k,
     body = VDict d →
     k ∈ ["previous_hash"; "merkle_root"; "timestamp"; "nonce"; "version"] →
     dict_lookup k d = None →
     result = Raise KeyError) ∧
  ((∀ d, body ≠ VDict d) → result = Raise TypeError) ∧
  peers (exec (request_block_header node port block_hash height) s) = peers s.
Proof.
  intros req result Hreply Hcode Hdec. subst req result.
  apply Z.eqb_eq in Hcode.
  assert (∀ r, BlockHeader_of body = r →
               eval (request_block_header node port block_hash height) s =
                 match r with
                 | Ret h => Ret (Some h)
                 | Raise RequestException => Ret None
                 | Raise e => Raise e
                 end ∧
               (r ≠ Raise RequestException →
                peers (exec (request_block_header node port block_hash height) s)
                  = peers s)) as Hrun.
  { intros r Hr. run_request. rewrite Hreply; simpl. rewrite Hcode, Hdec; simpl.
    rewrite Hr. destruct r as [h|[]]; simpl; done. }
  repeat split.
  - intros d p m t n v -> Hp Hm Ht Hn Hv.
    destruct (Hrun _ (BlockHeader_of_dict d)) as [-> _].
    by rewrite Hp, Hm, Ht, Hn, Hv.
  - intros d k -> Hk Hnone.
    destruct (Hrun _ (BlockHeader_of_dict d)) as [-> _].
    repeat (apply elem_of_cons in Hk as [->|Hk]; [rewrite Hnone; by repeat case_match|]).
    by apply elem_of_nil in Hk.
  - intros Hbody. destruct (Hrun _ eq_refl) as [-> _].
    destruct body; try done. by destruct (Hbody d).
  - destruct (Hrun _ eq_refl) as [_ Hpeers]. apply Hpeers.
    destruct body; try done. rewrite BlockHeader_of_dict. by repeat case_match.
Qed.

End RemoteOutcomeFacts.

(** ** Cancellation and the exposure layer *)

Module LifecycleMoreFacts.
Import Lifecycle LifecycleMore.

Lemma after_flag_app_in l es :
  In ExitFlagSet l → after_flag (l ++ es) = after_flag l ++ es.
Proof.
  induction l as [|e l IH]; simpl; [done|].
  intros [->|Hin]; [done|]. destruct e; auto.
Qed.

Lemma after_flag_app_not_in l es :
  ¬ In ExitFlagSet l → after_flag (l ++ es) = after_flag es.
Proof.
  induction l as [|e l IH]; simpl; [done|].
  intros Hn. destruct e; try (apply IH; tauto). tauto.
Qed.

Lemma after_flag_not_in l : ¬ In ExitFlagSet l → after_flag l = [].
Proof.
  intros Hn. rewrite <- (app_nil_r l). by rewrite after_flag_app_not_in.
Qed.

Lemma attempts_app l1 l2 : attempts (l1 ++ l2) = (attempts l1 + attempts l2)%nat.
Proof.
  induction l1 as [|e l1 IH]; [done|]. destruct e; simpl; by rewrite ?IH.
Qed.

Lemma flag_inv_started : flag_inv started_mining.
Proof. unfold flag_inv. simpl. tauto. Qed.

Lemma flag_inv_step s s' : flag_inv s → step s s' → flag_inv s'.
Proof.
  intros Hinv Hstep. unfold flag_inv in *.
  destruct Hstep; unfold set_caller, set_mining; simpl;
    destruct (exit_flag s) eqn:Hflag; try discriminate;
    try (destruct Hinv as (Hin & Hle & Hat);
         rewrite ?after_flag_app_in, ?attempts_app by done; simpl;
         repeat split;
         [ apply in_or_app; auto
         | first [ lia | rewrite Hat by done; lia ]
         | first [ discriminate | intros Hx; specialize (Hat Hx); lia
                 | intros Hx; rewrite Hx in *; discriminate ] ]);
    try (intros [Hin|Hin]%in_app_or; [done|]; simpl in Hin;
         repeat destruct Hin as [Hin|Hin]; done).
  (* the flag goes up *)
  repeat split.
  - apply in_or_app. right. by left.
  - rewrite after_flag_app_not_in by done. simpl. lia.
  - intros _. by rewrite after_flag_app_not_in.
Qed.

Lemma flag_inv_reachable s : reachable s → flag_inv s.
Proof.
  unfold reachable. revert s. apply rtc_ind_r; [apply flag_inv_started|].
  intros y z _ Hstep IH. by eapply flag_inv_step.
Qed.

(** X11 In a node started with mining, the exit flag is up exactly when
    [shutdown] has set it, and after that the mining thread calls
    [mine_block] at most once more: the attempt that was under way is
    finished, another is not begun. *)
Theorem at_most_one_attempt_after_exit_flag s :
  reachable s →
  (exit_flag s = true ↔ In ExitFlagSet (events s)) ∧
  (attempts (after_flag (events s)) ≤ 1)%nat.
Proof.
  intros Hinv%flag_inv_reachable. unfold flag_inv in Hinv.
  destruct (exit_flag s).
  - destruct Hinv as (Hin & Hle & _). tauto.
  - rewrite after_flag_not_in by done. simpl. split; [|lia].
    split; [discriminate|done].
Qed.

(** Where an event of a grown list sits: in the old part, or in what
    was appended. *)
Lemma split_snoc (l es pre post : list Ev) x :
  l ++ es = pre ++ x :: post →
  (∃ post', l = pre ++ x :: post') ∨ (∃ k, pre = l ++ k ∧ es = k ++ x :: post).
Proof.
  intros [(k & -> & Hk)|(k & -> & Hk)]%app_eq_inv.
  - destruct k as [|y k]; simpl in *.
    + right. exists []. rewrite !app_nil_r. by subst es.
    + injection Hk as <- _. left. by exists k.
  - right. by exists k.
Qed.

Lemma bottle_inv_started : bottle_inv started_mining.
Proof.
  split; simpl; [done|]. intros pre post H. by destruct pre.
Qed.

Lemma bottle_inv_step s s' : bottle_inv s → step s s' → bottle_inv s'.
Proof.
  intros [Hexited Hjoined] Hstep.
  assert (∀ nt fl pc mt es,
            ¬ In BottleJoined es →
            bottle_inv (mkSys nt fl pc mt (bottle_thread s) (events s ++ es))) as Hother.
  { intros nt fl pc mt es Hes. split; simpl.
    - intros Hx. apply in_or_app. auto.
    - intros pre post [[post' Hev]|(k & -> & ->)]%split_snoc.
      + by eapply Hjoined.
      + destruct Hes. apply in_or_app. right. by left. }
  destruct Hstep; unfold set_caller, set_mining;
    try (apply Hother; simpl; intuition discriminate).
  - (* the exposure layer is joined *)
    split; simpl.
    + intros Hx. apply in_or_app. auto.
    + intros pre post [[post' Hev]|(k & -> & Hk)]%split_snoc.
      * by eapply Hjoined.
      * apply in_or_app. left. auto.
  - (* the exposure layer exits *)
    split; simpl.
    + intros _. apply in_or_app. right. by left.
    + intros pre post [[post' Hev]|(k & -> & Hk)]%split_snoc.
      * by eapply Hjoined.
      * destruct k as [|? [|? ?]]; discriminate.
Qed.

Lemma bottle_inv_reachable s : reachable s → bottle_inv s.
Proof.
  unfold reachable. revert s. apply rtc_ind_r; [apply bottle_inv_started|].
  intros y z _ Hstep IH. by eapply bottle_inv_step.
Qed.

(** X12 [shutdown] gets past [bottle_thread.join()] only after the
    exposure layer has exited: a node whose exposure layer keeps serving
    never returns from [shutdown]. *)
Theorem shutdown_waits_for_exposure_layer s pre post :
  reachable s →
  events s = pre ++ BottleJoined :: post →
  In BottleThreadExit pre.
Proof. intros [_ H]%bottle_inv_reachable. apply H. Qed.

End LifecycleMoreFacts.

(** ** The further properties on concrete nodes *)

Module MoreWitnesses.
Import Example MoreExamples.

(** Witness for X1: the node with peers [a] and [b], at its quota. *)
Lemma inventory_broadcast_serves_every_peer_witness :
  eval (FullNode.broadcast_block_inv network0 port0 0 10 "me" evicts0 net_b_down
          (VStr "blockhash")) node_ab = Ret tt ∧
  requests_of
    (trace (exec (FullNode.broadcast_block_inv network0 port0 0 10 "me" evicts0
                    net_b_down (VStr "blockhash")) node_ab)) =
    requests_of
      (trace (exec (FullNode.check_peers network0 port0 0 10 "me" evicts0 net_b_down)
                   node_ab)) ++
    map (Broadcast.inbox_request port0 (VDict [("block_hashes", VStr "blockhash")]))
        (elements (dom (peers (exec (FullNode.check_peers network0 port0 0 10 "me"
                                       evicts0 net_b_down) node_ab)))).
Proof.
  pose proof (inventory_broadcast_serves_every_peer network0 port0 0 10 "me" evicts0
                net_b_down to_json0 node_ab) as H.
  apply H. reflexivity.
Defined.

(** Witness for X2: in that world only [b] is penalised. *)
Lemma inbox_broadcast_penalises_failures_only_witness :
  peers (exec (FullNode.post_inbox_loop port0 evicts0 net_b_down ["a"; "b"]
                 (VStr "x")) node_ab) =
    foldl (λ ps node, FullNode.Peers_record_downtime evicts0 node ps) (peers node_ab)
          (List.filter
             (λ node, transport_failed
                        (net_b_down [] (Broadcast.inbox_request port0 (VStr "x") node)))
             ["a"; "b"]).
Proof.
  apply (inbox_broadcast_penalises_failures_only port0 evicts0 net_b_down).
  intros t t' r. reflexivity.
Defined.

(** Witness for X4: the node that knows [a], in the world [gossip_net]. *)
Lemma find_known_peers_asks_every_peer_witness :
  requests_of (trace (exec (FullNode.find_known_peers port0 evicts0 gossip_net) node_a)) =
    requests_of (trace node_a) ++
    map (Broadcast.nodes_request port0) (elements (dom (peers node_a))).
Proof.
  destruct (eval (FullNode.find_known_peers port0 evicts0 gossip_net) node_a)
    as [known|e] eqn:E; [|vm_compute in E; discriminate].
  apply (proj2 (find_known_peers_asks_every_peer port0 evicts0 gossip_net node_a) known E).
Defined.

(** Witness for X5: the node without peers. *)
Lemma empty_registry_contacts_nobody_witness :
  FullNode.check_peers network0 port0 5 10 "me" evicts0 gossip_net node_empty
    = (Ret tt, node_empty).
Proof.
  apply (empty_registry_contacts_nobody network0 port0 5 10 "me" evicts0 gossip_net
           to_dict0 to_json0 node_empty).
  reflexivity.
Defined.

(** Witness for X8: a peer that cannot be reached, and a 404 answer. *)
Lemma remote_operations_downtime_witness :
  exec (FullNode.request_blocks_inv evicts0 net_down "a" port0 (VInt 1) (VInt 9)) node_a =
    mkNode (FullNode.Peers_record_downtime evicts0 "a" (peers node_a))
           [EvRequest (GET (format BLOCKS_INV_URL [VStr "a"; port0; VInt 1; VInt 9]));
            EvWarn (WarnRequestException "a"); EvRecordDowntime "a"] ∧
  exec (FullNode.request_blocks_inv evicts0 net_not_found "a" port0 (VInt 1) (VInt 9))
       node_a =
    mkNode (peers node_a)
           [EvRequest (GET (format BLOCKS_INV_URL [VStr "a"; port0; VInt 1; VInt 9]))].
Proof.
  split.
  - pose proof (remote_operations_downtime evicts0 net_down hash_recomputed
                  "a" port0 (VInt 1) (VInt 9) node_a) as [(_ & _ & _ & _ & H) _].
    apply H. reflexivity.
  - pose proof (remote_operations_downtime evicts0 net_not_found hash_recomputed
                  "a" port0 (VInt 1) (VInt 9) node_a) as [_ (_ & _ & _ & _ & H)].
    apply (H (mkResponse 404 (Ret VNone))); [reflexivity|discriminate].
Defined.

(** Witness for X9: a body whose claimed hash is the recomputed one. *)
Lemma request_transaction_returns_verified_witness :
  eval (FullNode.request_transaction evicts0 net_tx hash_claimed "a" port0
          (VStr "claimed")) node_a = Ret (Some tx0) ∧
  peers (exec (FullNode.request_transaction evicts0 net_tx hash_claimed "a" port0
                 (VStr "claimed")) node_a) = peers node_a.
Proof.
  apply (request_transaction_returns_verified evicts0 net_tx hash_claimed
           "a" port0 (VStr "claimed") node_a (mkResponse 200 (Ret tx_dict0)) tx_dict0 tx0);
    reflexivity.
Defined.

(** Witness for X10: a header body with an extra field. *)
Lemma request_block_header_fields_witness :
  eval (FullNode.request_block_header evicts0 net_header "a" port0 VNone VNone) node_a =
    Ret (Some (mkBlockHeader (VStr "prev") (VStr "root") (VInt 1500000003)
                             (VInt 42) (VInt 1))).
Proof.
  pose proof (request_block_header_fields evicts0 net_header "a" port0 VNone VNone node_a
                (mkResponse 200 (Ret (VDict header_dict0))) (VDict header_dict0)
                eq_refl eq_refl eq_refl) as (H & _).
  apply (H header_dict0); reflexivity.
Defined.

(** A run in which the exit flag goes up while a mining attempt is
    under way. *)
Lemma late_attempt_reachable : Lifecycle.reachable late_attempt.
Proof.
  unfold Lifecycle.reachable.
  eapply rtc_l; [apply Lifecycle.step_while_enter; reflexivity|].
  eapply rtc_l; [apply Lifecycle.step_call; reflexivity|].
  eapply rtc_l; [apply Lifecycle.step_is_miner; reflexivity|].
  eapply rtc_l; [apply Lifecycle.step_set_flag; reflexivity|].
  eapply rtc_l; [apply (Lifecycle.step_mined _ block0); reflexivity|].
  eapply rtc_l; [apply Lifecycle.step_add_rejected; reflexivity|].
  eapply rtc_l; [apply Lifecycle.step_while_exit; reflexivity|].
  apply rtc_refl.
Defined.

(** Witness for X11: that run, with its one attempt after the flag. *)
Lemma at_most_one_attempt_after_exit_flag_witness :
  (Lifecycle.exit_flag late_attempt = true ↔
   In Lifecycle.ExitFlagSet (Lifecycle.events late_attempt)) ∧
  (LifecycleMore.attempts (LifecycleMore.after_flag (Lifecycle.events late_attempt)) ≤ 1)%nat.
Proof.
  apply (LifecycleMoreFacts.at_most_one_attempt_after_exit_flag late_attempt).
  exact late_attempt_reachable.
Defined.

(** Witness for X12: the run in which [shutdown] returns. *)
Lemma shutdown_waits_for_exposure_layer_witness :
  In Lifecycle.BottleThreadExit
     [Lifecycle.Mined None; Lifecycle.ShutdownCalled; Lifecycle.ExitFlagSet;
      Lifecycle.MiningThreadExit; Lifecycle.MiningJoined; Lifecycle.BottleThreadExit].
Proof.
  apply (LifecycleMoreFacts.shutdown_waits_for_exposure_layer shut_down _
           [Lifecycle.ShutdownReturned]).
  - exact Witnesses.shut_down_reachable.
  - reflexivity.
Defined.

(** Witness for C1: the block [block0], accepted: its transactions
    after the coinbase leave the pool, then its hash goes to the inbox of
    the one peer, then the block is logged. *)
Lemma mine_commit_prune_broadcast_witness :
  let mine_iteration :=
    FullNode.mine_iteration network0 port0 0 10 "me" evicts0 net_status_ok
      mine_block0 (λ _ _, true) header_hash0 in
  ∃ delivery,
    eval mine_iteration node_a = Ret tt ∧
    trace (exec mine_iteration node_a) =
      [EvMineBlock (Some block0); EvAddBlock block0 true;
       EvRemoveUnconfirmed [tx1; tx2]] ++ delivery ++ [EvInfoBlockFound block0] ∧
    forallb network_event delivery = true ∧
    requests_of delivery =
      [POST (format INBOX_URL [VStr "a"; port0])
            (VDict [("block_hashes", VStr "blockhash")])].
Proof.
  destruct (proj1 (mine_commit_prune_broadcast network0 port0 0 10 "me" evicts0
                     net_status_ok mine_block0 (λ _ _, true) exit_flag0 header_hash0)
              node_a block0 eq_refl eq_refl) as (_ & H & _).
  exact (H eq_refl).
Defined.

End MoreWitnesses.
